(** * API-browser: the service worker's correlation and aggregation engine

    A shallow embedding of [service_worker.js] (classifier, URL normaliser,
    request correlator, per-tab aggregation store) and of the popup's
    [clearTab], [fmtBytes], item list and settings checkbox, followed by the
    properties proved about them.

    Conventions.
    - JavaScript strings are Rocq strings, read as strings whose code units
      are below 256.
    - JavaScript numbers that the code only counts with or adds up are
      unbounded integers ([nat] for counters, [Z] for sizes, status codes,
      tab ids and timestamps); the rounding of [parseInt] to a double is
      written out where the code tests [Number.isFinite], and a statement
      about a sum of sizes says when the sum is exact in doubles.
    - [null] and [undefined] are [None].
    - What the browser provides ([RegExp], [URL], [chrome.storage],
      [Date.now]) is a parameter: the class [Host] for the pure builtins, the
      record [Env] for the clock and for which storage calls reject.
    - [run] lets a listener run from start to end before the next event is
      delivered. The listeners are async and the worker has no lock:
      [overlapped] stops them at each [await], and a statement that needs
      the listeners to run one after the other says so. *)

From Stdlib Require Import ZArith Ascii String.
From stdpp Require Import gmap strings list fin_maps pretty.
From Stdlib Require QArith Qround Qabs.


(** ** JavaScript builtins used by the worker *)

Module JS.

(** [a || b] on a possibly absent string: the empty string is falsy. *)
Definition or_else (a : option string) (b : string) : string :=
  match a with
  | Some s => if decide (s = "") then b else s
  | None => b
  end.

(** [String.prototype.toLowerCase] on code units below 256: the ASCII
    capitals and the Latin-1 capitals (all of 0xC0..0xDE but the
    multiplication sign 0xD7) move up by 32. *)
Definition lower_unit (c : ascii) : ascii :=
  let n := N_of_ascii c in
  if ((65 <=? n) && (n <=? 90) ||
      (192 <=? n) && (n <=? 222) && negb (n =? 215))%N
  then ascii_of_N (n + 32) else c.

Fixpoint toLowerCase (s : string) : string :=
  match s with
  | EmptyString => EmptyString
  | String c r => String (lower_unit c) (toLowerCase r)
  end.

(** White space and line terminators among the code units below 256:
    TAB, LF, VT, FF, CR, SP and NBSP. *)
Definition is_space (c : ascii) : bool :=
  let n := N_of_ascii c in
  ((9 <=? n) && (n <=? 13) || (n =? 32) || (n =? 160))%N.

Definition digit_of (c : ascii) : option Z :=
  let n := N_of_ascii c in
  if ((48 <=? n) && (n <=? 57))%N then Some (Z.of_N n - 48)%Z else None.

Fixpoint trimStart (s : string) : string :=
  match s with
  | String c r => if is_space c then trimStart r else s
  | EmptyString => s
  end.

(** The value of the longest run of decimal digits at the head of [s],
    with [acc] the value of the digits already consumed and [seen] telling
    whether there was one. *)
Fixpoint digits (acc : Z) (seen : bool) (s : string) : option Z :=
  match s with
  | String c r =>
      match digit_of c with
      | Some d => digits (10 * acc + d)%Z true r
      | None => if seen then Some acc else None
      end
  | EmptyString => if seen then Some acc else None
  end.

(** The mathematical integer [parseInt(s, 10)] reads: leading white space
    is skipped, one sign is accepted, then the longest run of digits is
    taken and whatever follows is ignored. [None] is NaN. *)
Definition parseInt10 (s : string) : option Z :=
  match trimStart s with
  | String "-" r => Z.opp <$> digits 0 false r
  | String "+" r => digits 0 false r
  | r => digits 0 false r
  end.

(** The double nearest to the integer [z] (ties to even), [None] when it
    is an infinity. Integers below 2^53 in magnitude are doubles. *)
Definition to_double (z : Z) : option Z :=
  let a := Z.abs z in
  if (a <? 2 ^ 53)%Z then Some z else
  let e := (Z.log2 a - 52)%Z in
  let q := (a / 2 ^ e)%Z in
  let r := (a mod 2 ^ e)%Z in
  let half := (2 ^ (e - 1))%Z in
  let q' := if ((half <? r) || ((r =? half) && Z.odd q))%Z then (q + 1)%Z else q in
  let v := (q' * 2 ^ e)%Z in
  if (2 ^ 1024 <=? v)%Z then None else Some (Z.sgn z * v)%Z.

(** [Array.prototype.splice(start)] with one argument: the array keeps
    what is before [start], the call returns the rest. A negative [start]
    counts from the end. *)
Definition splice {A} (start : Z) (l : list A) : list A * list A :=
  let len := Z.of_nat (length l) in
  let s := if (start <? 0)%Z then Z.max (len + start) 0 else Z.min start len in
  (take (Z.to_nat s) l, drop (Z.to_nat s) l).

End JS.

(** ** The host: [RegExp] and [URL] *)

(** The three getters of a [URL] object the worker reads. *)
Record URLParts := { origin : string; pathname : string; search : string }.

Class Host := {
  RegExp : Type;
  (** [new RegExp(source, flags)]; [None] when the constructor throws. *)
  RegExp_new : string → string → option RegExp;
  (** [r.test(s)] for a pattern without the [g] and [y] flags. *)
  RegExp_test : RegExp → string → bool;
  (** [new URL(raw)]; [None] when the constructor throws. *)
  URL_new : string → option URLParts;
}.

(** ** Settings *)

Record Settings := {
  captureTypes : list string;
  includeQueryString : bool;
  apiIncludePatterns : list string;
  apiExcludePatterns : list string;
  maxPerTab : Z;
}.

Definition DEFAULT_SETTINGS : Settings := {|
  captureTypes := ["xmlhttprequest"; "fetch"];
  includeQueryString := false;
  apiIncludePatterns :=
    ["/api(?:/|$)"; "/apis(?:/|$)"; "/graphql(?:/|$)"; "/gql(?:/|$)";
     "/rest(?:/|$)"; "/v\d+(?:/|$)"; "/rpc(?:/|$)"; "/services?(?:/|$)"];
  apiExcludePatterns :=
    ["\.js(?:\?|$)"; "\.css(?:\?|$)"; "\.png(?:\?|$)"; "\.jpg(?:\?|$)";
     "\.jpeg(?:\?|$)"; "\.gif(?:\?|$)"; "\.svg(?:\?|$)"; "\.webp(?:\?|$)";
     "\.ico(?:\?|$)"; "\.woff2?(?:\?|$)"; "\.ttf(?:\?|$)"; "\.map(?:\?|$)"];
  maxPerTab := 2000;
|}.

(** The object kept under ["settings"] in [chrome.storage.local]: each key
    may be there or not. *)
Record StoredSettings := {
  st_captureTypes : option (list string);
  st_includeQueryString : option bool;
  st_apiIncludePatterns : option (list string);
  st_apiExcludePatterns : option (list string);
  st_maxPerTab : option Z;
}.

Definition no_settings : StoredSettings :=
  {| st_captureTypes := None; st_includeQueryString := None;
     st_apiIncludePatterns := None; st_apiExcludePatterns := None;
     st_maxPerTab := None |}.

(** [{ ...DEFAULT_SETTINGS, ...(stored.settings || {}) }] *)
Definition spread (d : Settings) (s : option StoredSettings) : Settings :=
  let s := default no_settings s in
  {| captureTypes := default (captureTypes d) (st_captureTypes s);
     includeQueryString := default (includeQueryString d) (st_includeQueryString s);
     apiIncludePatterns := default (apiIncludePatterns d) (st_apiIncludePatterns s);
     apiExcludePatterns := default (apiExcludePatterns d) (st_apiExcludePatterns s);
     maxPerTab := default (maxPerTab d) (st_maxPerTab s) |}.

(** ** Pattern classifier and URL normaliser *)

Section Classifier.
Context `{Host}.

(** The loop pushes each pattern that compiles; the empty [catch] skips
    the others. *)
Definition safeRegexList (patterns : option (list string)) : list RegExp :=
  foldl (λ out p,
           match RegExp_new p "i" with
           | Some r => out ++ [r]
           | None => out
           end)
        [] (default [] patterns).

Definition normalizeUrl (rawUrl : string) (includeQueryString : bool) : string :=
  match URL_new rawUrl with
  | Some u =>
      if includeQueryString
      then origin u +:+ pathname u +:+ search u
      else origin u +:+ pathname u
  | None => rawUrl
  end.

Definition isApiUrl (url : option string) (settings : Settings) : bool :=
  let inc := safeRegexList (Some (apiIncludePatterns settings)) in
  let exc := safeRegexList (Some (apiExcludePatterns settings)) in
  let target := JS.or_else url "" in
  let included :=
    match length inc with
    | O => true
    | S _ => existsb (λ r, RegExp_test r target) inc
    end in
  let excluded :=
    match length exc with
    | O => false
    | S _ => existsb (λ r, RegExp_test r target) exc
    end in
  included && negb excluded.

End Classifier.

(** ** Data model *)

(** A status handed to the store: the number of [details.statusCode], or
    the string ["ERR"]. *)
Inductive Status :=
| StatusCode (n : Z)
| StatusText (s : string).

(** [String(statusCode)] *)
Definition String_of (st : Status) : string :=
  match st with
  | StatusCode n => pretty n
  | StatusText s => s
  end.

(** The object stored under a key of [data.items]. *)
Module Item.
Record t := {
  key : string;
  method : string;
  endpoint : string;
  count : nat;
  firstSeen : Z;
  lastSeen : Z;
  lastStatus : option Status;
  statusCounts : gmap string nat;
  sizeKnownCount : nat;
  sizeSum : Z;
  lastSize : option Z;
}.
End Item.

(** The value of [requestCache] for a request in flight. *)
Module Meta.
Record t := {
  tabId : Z;
  method : string;
  endpoint : string;
  sizeBytes : option Z;
}.
End Meta.

Record HttpHeader := { name : string; value : option string }.

(** The fields of a [webRequest] event the listeners read. *)
Module Details.
Record t := {
  requestId : string;
  tabId : Z;
  type : string;
  url : string;
  method : option string;
  responseHeaders : option (list HttpHeader);
  statusCode : option Z;
}.
End Details.

Record TabData := { items : gmap string Item.t; order : list string }.

Definition empty_tab : TabData := {| items := ∅; order := [] |}.

(** ** The world a listener runs in *)

(** The calls to [chrome.storage]. *)
Inductive Access :=
| LocalGet
| SessionGet (k : string)
| SessionSet (k : string)
| SessionRemove (k : string).

(** What one run of a listener gets from outside: the clock, the active
    tab the popup sees, and the storage calls that reject. *)
Record Env := {
  now : Z;
  activeTab : option Z;
  rejects : Access → bool;
}.

Record World := {
  requestCache : gmap string Meta.t;
  local_settings : option StoredSettings;
  session : gmap string TabData;
  calls : list Access;
}.

Definition with_cache (f : gmap string Meta.t → gmap string Meta.t) (w : World) : World :=
  {| requestCache := f (requestCache w); local_settings := local_settings w;
     session := session w; calls := calls w |}.

Definition with_session (f : gmap string TabData → gmap string TabData) (w : World) : World :=
  {| requestCache := requestCache w; local_settings := local_settings w;
     session := f (session w); calls := calls w |}.

Definition with_settings (s : option StoredSettings) (w : World) : World :=
  {| requestCache := requestCache w; local_settings := s;
     session := session w; calls := calls w |}.

Definition with_call (a : Access) (w : World) : World :=
  {| requestCache := requestCache w; local_settings := local_settings w;
     session := session w; calls := calls w ++ [a] |}.

(** A computation returns or throws, and leaves a world either way. *)
Inductive Res (A : Type) :=
| Ok (a : A)
| Throw.
Arguments Ok {A} a.
Arguments Throw {A}.

Definition M (A : Type) : Type := Env → World → Res A * World.

Global Instance M_ret : MRet M := λ A a _ w, (Ok a, w).

Global Instance M_bind : MBind M := λ A B f m e w,
  match m e w with
  | (Ok a, w') => f a e w'
  | (Throw, w') => (Throw, w')
  end.

Definition throw {A} : M A := λ _ w, (Throw, w).
Definition modify (f : World → World) : M unit := λ _ w, (Ok tt, f w).
Definition read {A} (f : World → A) : M A := λ _ w, (Ok (f w), w).
Definition Date_now : M Z := λ e w, (Ok (now e), w).
Definition getActiveTabId : M (option Z) := λ e w, (Ok (activeTab e), w).

(** A storage call is logged, then rejects or goes on. *)
Definition storage_call (a : Access) : M unit := λ e w,
  (if rejects e a then Throw else Ok tt, with_call a w).

Definition storage_local_get : M (option StoredSettings) :=
  storage_call LocalGet;; read local_settings.

Definition storage_session_get (k : string) : M (option TabData) :=
  storage_call (SessionGet k);; read (λ w, session w !! k).

Definition storage_session_set (k : string) (data : TabData) : M unit :=
  storage_call (SessionSet k);; modify (with_session (insert k data)).

Definition storage_session_remove (k : string) : M unit :=
  storage_call (SessionRemove k);; modify (with_session (delete k)).

(** ** Aggregation store *)

Definition getSettings : M Settings :=
  stored ← storage_local_get;
  mret (spread DEFAULT_SETTINGS stored).

Definition tabKey (tabId : Z) : string := "tab:" +:+ pretty tabId.

Definition getTabData (tabId : Z) : M TabData :=
  obj ← storage_session_get (tabKey tabId);
  mret (default empty_tab obj).

Definition setTabData (tabId : Z) (data : TabData) : M unit :=
  storage_session_set (tabKey tabId) data.

Definition makeKey (method endpoint : string) : string :=
  method +:+ " " +:+ endpoint.

Definition new_item (key method endpoint : string) (now : Z) : Item.t :=
  {| Item.key := key; Item.method := method; Item.endpoint := endpoint;
     Item.count := 0; Item.firstSeen := now; Item.lastSeen := now;
     Item.lastStatus := None; Item.statusCounts := ∅;
     Item.sizeKnownCount := 0; Item.sizeSum := 0; Item.lastSize := None |}.

(** [if (!data.items[key]) { data.items[key] = {...}; data.order.unshift(key) }] *)
Definition ensure_item (data : TabData) (key method endpoint : string) (now : Z) : TabData :=
  match items data !! key with
  | Some _ => data
  | None =>
      {| items := <[key := new_item key method endpoint now]> (items data);
         order := key :: order data |}
  end.

(** [it.count += 1; it.lastSeen = now] *)
Definition seen (it : Item.t) (now : Z) : Item.t :=
  {| Item.key := Item.key it; Item.method := Item.method it;
     Item.endpoint := Item.endpoint it;
     Item.count := Item.count it + 1; Item.firstSeen := Item.firstSeen it;
     Item.lastSeen := now;
     Item.lastStatus := Item.lastStatus it; Item.statusCounts := Item.statusCounts it;
     Item.sizeKnownCount := Item.sizeKnownCount it; Item.sizeSum := Item.sizeSum it;
     Item.lastSize := Item.lastSize it |}.

(** [if (statusCode != null) { it.lastStatus = statusCode; ... }]
    [statusCounts] is a plain object; the map holds the properties of its
    own, which is all of it that the code meets under the labels it uses
    itself, numerals and ERR. *)
Definition with_status (it : Item.t) (statusCode : option Status) : Item.t :=
  match statusCode with
  | Some st =>
      let s := String_of st in
      {| Item.key := Item.key it; Item.method := Item.method it;
         Item.endpoint := Item.endpoint it;
         Item.count := Item.count it; Item.firstSeen := Item.firstSeen it;
         Item.lastSeen := Item.lastSeen it;
         Item.lastStatus := Some st;
         Item.statusCounts :=
           <[s := default 0 (Item.statusCounts it !! s) + 1]> (Item.statusCounts it);
         Item.sizeKnownCount := Item.sizeKnownCount it; Item.sizeSum := Item.sizeSum it;
         Item.lastSize := Item.lastSize it |}
  | None => it
  end.

(** [if (sizeBytes != null) { it.lastSize = sizeBytes; ... }]
    [sizeSum] is added up exactly here; the code adds doubles, which is
    the same as long as the sums stay below 2^53. *)
Definition with_size (it : Item.t) (sizeBytes : option Z) : Item.t :=
  match sizeBytes with
  | Some n =>
      {| Item.key := Item.key it; Item.method := Item.method it;
         Item.endpoint := Item.endpoint it;
         Item.count := Item.count it; Item.firstSeen := Item.firstSeen it;
         Item.lastSeen := Item.lastSeen it;
         Item.lastStatus := Item.lastStatus it; Item.statusCounts := Item.statusCounts it;
         Item.sizeKnownCount := Item.sizeKnownCount it + 1;
         Item.sizeSum := (Item.sizeSum it + n)%Z;
         Item.lastSize := Some n |}
  | None => it
  end.

(** [if (data.order.length > settings.maxPerTab) { ... }] *)
Definition enforce_limit (data : TabData) (maxPerTab : Z) : TabData :=
  if (maxPerTab <? Z.of_nat (length (order data)))%Z then
    let '(kept, removed) := JS.splice maxPerTab (order data) in
    {| items := foldl (λ m rk, delete rk m) (items data) removed; order := kept |}
  else data.

(** Lines 113 to 153: what happens to the table between the read and the
    write. [None] is the [TypeError] of [it.count] on a missing item. *)
Definition upsert_table (settings : Settings) (now : Z) (data : TabData)
    (method endpoint : string) (statusCode : option Status) (sizeBytes : option Z)
    : option TabData :=
  let key := makeKey method endpoint in
  let data := ensure_item data key method endpoint now in
  it ← items data !! key;
  let it := with_size (with_status (seen it now) statusCode) sizeBytes in
  let data := {| items := <[key := it]> (items data); order := order data |} in
  Some (enforce_limit data (maxPerTab settings)).

Definition upsertApiCall (tabId : Z) (method endpoint : string)
    (statusCode : option Status) (sizeBytes : option Z) : M unit :=
  if (tabId <? 0)%Z then mret tt else
  settings ← getSettings;
  data ← getTabData tabId;
  now ← Date_now;
  match upsert_table settings now data method endpoint statusCode sizeBytes with
  | Some data => setTabData tabId data
  | None => throw
  end.

(** ** Request correlator: the listeners *)

Definition getHeaderValue (headers : option (list HttpHeader)) (target : string) : option string :=
  match headers with
  | None => None
  | Some hs =>
      h ← find (λ x, bool_decide (JS.toLowerCase (JS.or_else (Some (name x)) "")
                                  = JS.toLowerCase target)) hs;
      value h
  end.

Definition toIntOrNull (v : option string) : option Z :=
  s ← v;
  n ← JS.parseInt10 s;
  JS.to_double n.

Section Listeners.
Context `{Host}.

Definition onBeforeRequest (details : Details.t) : M unit :=
  settings ← getSettings;
  if negb (bool_decide (Details.type details ∈ captureTypes settings)) then mret tt else
  let endpoint := normalizeUrl (Details.url details) (includeQueryString settings) in
  if negb (isApiUrl (Some endpoint) settings) then mret tt else
  modify (with_cache (insert (Details.requestId details)
    {| Meta.tabId := Details.tabId details;
       Meta.method := JS.or_else (Details.method details) "GET";
       Meta.endpoint := endpoint;
       Meta.sizeBytes := None |})).

Definition onHeadersReceived (details : Details.t) : M unit :=
  meta ← read (λ w, requestCache w !! Details.requestId details);
  match meta with
  | None => mret tt
  | Some meta =>
      let cl := getHeaderValue (Details.responseHeaders details) "content-length" in
      let size := toIntOrNull cl in
      let meta :=
        match size with
        | Some n =>
            {| Meta.tabId := Meta.tabId meta; Meta.method := Meta.method meta;
               Meta.endpoint := Meta.endpoint meta; Meta.sizeBytes := Some n |}
        | None => meta
        end in
      modify (with_cache (insert (Details.requestId details) meta))
  end.

Definition onCompleted (details : Details.t) : M unit :=
  meta ← read (λ w, requestCache w !! Details.requestId details);
  match meta with
  | None => mret tt
  | Some meta =>
      upsertApiCall (Meta.tabId meta) (Meta.method meta) (Meta.endpoint meta)
        (StatusCode <$> Details.statusCode details) (Meta.sizeBytes meta);;
      modify (with_cache (delete (Details.requestId details)))
  end.

Definition onErrorOccurred (details : Details.t) : M unit :=
  meta ← read (λ w, requestCache w !! Details.requestId details);
  match meta with
  | None => mret tt
  | Some meta =>
      upsertApiCall (Meta.tabId meta) (Meta.method meta) (Meta.endpoint meta)
        (Some (StatusText "ERR")) (Meta.sizeBytes meta);;
      modify (with_cache (delete (Details.requestId details)))
  end.

End Listeners.

Definition onRemoved (tabId : Z) : M unit :=
  storage_session_remove (tabKey tabId).

(** ** The popup's operations on the store *)

(** [refresh] reads the active tab's table and renders it. *)
Definition refresh : M unit :=
  tabId ← getActiveTabId;
  match tabId with
  | None => mret tt
  | Some tabId =>
      if decide (tabId = 0%Z) then mret tt else
      _ ← getTabData tabId; mret tt
  end.

(** [if (!tabId) return] stops on an absent id and on tab 0. *)
Definition clearTab : M unit :=
  tabId ← getActiveTabId;
  match tabId with
  | None => mret tt
  | Some tabId =>
      if decide (tabId = 0%Z) then mret tt else
      setTabData tabId empty_tab;;
      refresh
  end.

(** ** Runs of the system *)

(** What can happen to the worker and its storage: the four [webRequest]
    events, a tab closing, a direct call of [upsertApiCall], the popup's
    Clear button, and somebody storing other settings. *)
Inductive Action :=
| BeforeRequest (details : Details.t)
| HeadersReceived (details : Details.t)
| Completed (details : Details.t)
| ErrorOccurred (details : Details.t)
| TabRemoved (tabId : Z)
| Upsert (tabId : Z) (method endpoint : string)
         (statusCode : option Status) (sizeBytes : option Z)
| ClearTab
| SettingsStored (s : option StoredSettings).

Section Runs.
Context `{Host}.

Definition perform (a : Action) : M unit :=
  match a with
  | BeforeRequest d => onBeforeRequest d
  | HeadersReceived d => onHeadersReceived d
  | Completed d => onCompleted d
  | ErrorOccurred d => onErrorOccurred d
  | TabRemoved tabId => onRemoved tabId
  | Upsert tabId method endpoint statusCode sizeBytes =>
      upsertApiCall tabId method endpoint statusCode sizeBytes
  | ClearTab => clearTab
  | SettingsStored s => modify (with_settings s)
  end.

(** Each action runs in its own environment; a listener that throws
    leaves the world as it was when it threw. *)
Fixpoint run (acts : list (Action * Env)) (w : World) : World :=
  match acts with
  | [] => w
  | (a, e) :: rest => run rest (perform a e w).2
  end.

End Runs.

(** One terminal event as the store sees it. *)
Record Call := {
  c_method : string;
  c_endpoint : string;
  c_status : option Status;
  c_size : option Z;
  c_env : Env;
}.


(** The calls of [cs], one after the other, for one tab. *)
Definition upserts (tabId : Z) (cs : list Call) (w : World) : World :=
  foldl (λ w c,
           (upsertApiCall tabId (c_method c) (c_endpoint c) (c_status c) (c_size c)
              (c_env c) w).2)
        w cs.

(** The table a reader gets for a tab. *)
Definition table_of (w : World) (tabId : Z) : TabData :=
  default empty_tab (session w !! tabKey tabId).

Definition settings_of (w : World) : Settings :=
  spread DEFAULT_SETTINGS (local_settings w).

Definition quiet (e : Env) : Prop := ∀ a, rejects e a = false.

(** The table [upsert_table] hands to [setTabData]: the item under the
    key, fresh when there was none, with this call recorded, and the limit
    enforced. *)
Definition upserted (settings : Settings) (now : Z) (data : TabData)
    (method endpoint : string) (statusCode : option Status) (sizeBytes : option Z)
    : TabData :=
  let key := makeKey method endpoint in
  let it0 := default (new_item key method endpoint now) (items data !! key) in
  let it := with_size (with_status (seen it0 now) statusCode) sizeBytes in
  enforce_limit
    {| items := <[key := it]> (items data);
       order := match items data !! key with
                | Some _ => order data
                | None => key :: order data
                end |}
    (maxPerTab settings).

(** The world after the three storage calls of an upsert that wrote [data]. *)
Definition written (w : World) (tabId : Z) (data : TabData) : World :=
  with_session (insert (tabKey tabId) data)
    (with_call (SessionSet (tabKey tabId))
       (with_call (SessionGet (tabKey tabId)) (with_call LocalGet w))).

(** ** Notions used in the statements *)

(** [sum(statusCounts.values())] *)
Definition sum_values (m : gmap string nat) : nat :=
  map_fold (λ _ v acc, v + acc) 0 m.

(** [order] and [items] name the same keys, each once. *)
Definition consistent (data : TabData) : Prop :=
  NoDup (order data) ∧ ∀ k, k ∈ order data ↔ is_Some (items data !! k).

(** An item after one more call: lines 134 to 147. *)
Definition recorded (it : Item.t) (now : Z) (statusCode : option Status)
    (sizeBytes : option Z) : Item.t :=
  with_size (with_status (seen it now) statusCode) sizeBytes.

(** [key] heads [order], is nowhere else in it, and has the item [it]. *)
Definition tracked (data : TabData) (key : string) (it : Item.t) : Prop :=
  items data !! key = Some it ∧
  ∃ rest, order data = key :: rest ∧ key ∉ rest.

(** Every stored table is consistent. *)
Definition store_consistent (w : World) : Prop :=
  ∀ k data, session w !! k = Some data → consistent data.



(** How a terminal listener [handler] consumes the pending entry [meta] of
    [id] around its call [upsert]: after an upsert that returns, the entry
    is deleted; after one that throws, the listener has thrown as well and
    the entry is where it was. *)
Definition consumes (handler upsert : M unit) (id : string) (meta : Meta.t)
    (e : Env) (w : World) : Prop :=
  match upsert e w with
  | (Ok _, w1) =>
      handler e w = (Ok tt, with_cache (delete id) w1) ∧
      requestCache (with_cache (delete id) w1) !! id = None
  | (Throw, w1) =>
      handler e w = (Throw, w1) ∧ requestCache w1 !! id = Some meta
  end.

(** [h] is the first header of [hs] with the name [target], whatever the
    case of the letters. *)
Definition first_named (target : string) (hs : list HttpHeader) (h : HttpHeader) : Prop :=
  ∃ before after,
    hs = before ++ h :: after ∧
    JS.toLowerCase (name h) = JS.toLowerCase target ∧
    ∀ x, x ∈ before → JS.toLowerCase (name x) ≠ JS.toLowerCase target.

(** The event carries a length header whose value [parseInt] reads, in
    base 10, as an integer that is the finite double [n]. *)
Definition length_header (details : Details.t) (n : Z) : Prop :=
  ∃ hs h v z,
    Details.responseHeaders details = Some hs ∧
    first_named "content-length" hs h ∧
    value h = Some v ∧
    JS.parseInt10 v = Some z ∧
    JS.to_double z = Some n.

(** ** A host to run the model on

    Patterns made of letters, digits, [/], [-] and [_] mean "contains this
    text"; this host compiles those and rejects every other source, among
    them the unbalanced ["("]. Its [URL] knows the sample requests below
    and throws on anything else. *)
Module Fixture.

Definition plain (c : ascii) : bool :=
  let n := N_of_ascii c in
  ((48 <=? n) && (n <=? 57) || (65 <=? n) && (n <=? 90) ||
   (97 <=? n) && (n <=? 122) || (n =? 45) || (n =? 47) || (n =? 95))%N.

Fixpoint all_plain (s : string) : bool :=
  match s with
  | EmptyString => true
  | String c r => plain c && all_plain r
  end.

Fixpoint contains (needle hay : string) : bool :=
  String.prefix needle hay ||
  match hay with
  | EmptyString => false
  | String _ r => contains needle r
  end.

Definition sample_urls : list (string * URLParts) :=
  [("https://x.com/api/users",
    {| origin := "https://x.com"; pathname := "/api/users"; search := "" |});
   ("https://x.com/api/users?x=1",
    {| origin := "https://x.com"; pathname := "/api/users"; search := "?x=1" |});
   ("https://x.com/api/users?x=2",
    {| origin := "https://x.com"; pathname := "/api/users"; search := "?x=2" |});
   ("https://x.com/api/orders",
    {| origin := "https://x.com"; pathname := "/api/orders"; search := "" |});
   ("https://x.com/app.js",
    {| origin := "https://x.com"; pathname := "/app.js"; search := "" |})].

(** A compiled pattern: its source and whether it ignores case. *)
#[export] Instance host : Host := {|
  RegExp := string * bool;
  RegExp_new source flags :=
    if all_plain source then Some (source, contains "i" flags) else None;
  RegExp_test r s :=
    if r.2 then contains (JS.toLowerCase r.1) (JS.toLowerCase s)
    else contains r.1 s;
  URL_new raw := snd <$> find (λ p, bool_decide (p.1 = raw)) sample_urls;
|}.

Definition settings : StoredSettings :=
  {| st_captureTypes := None; st_includeQueryString := None;
     st_apiIncludePatterns := Some ["/api/"; "("; "/graphql"];
     st_apiExcludePatterns := Some ["/static/"];
     st_maxPerTab := Some 2%Z |}.

Definition clock (t : Z) : Env :=
  {| now := t; activeTab := Some 5%Z; rejects := λ _, false |}.

(** The clock at [t], and the write of tab tables rejects. *)
Definition full (t : Z) : Env :=
  {| now := t; activeTab := Some 5%Z;
     rejects := λ a, match a with SessionSet _ => true | _ => false end |}.

Definition world : World :=
  {| requestCache := ∅; local_settings := Some settings;
     session := ∅; calls := [] |}.

Definition request (id : string) (tab : Z) (u : string) : Details.t :=
  {| Details.requestId := id; Details.tabId := tab; Details.type := "fetch";
     Details.url := u; Details.method := Some "GET";
     Details.responseHeaders := None; Details.statusCode := None |}.

Definition response (id : string) (hs : list HttpHeader) (status : option Z) : Details.t :=
  {| Details.requestId := id; Details.tabId := 5; Details.type := "fetch";
     Details.url := ""; Details.method := Some "GET";
     Details.responseHeaders := Some hs; Details.statusCode := status |}.

Definition call (m ep : string) (st : option Status) (t : Z) : Call :=
  {| c_method := m; c_endpoint := ep; c_status := st; c_size := None;
     c_env := clock t |}.

End Fixture.

(** ** Further notions: what a run of calls leaves in an item *)

(** The item [it] after the calls [cs], one after the other. *)
Definition replayed (it : Item.t) (cs : list Call) : Item.t :=
  foldl (λ it c, recorded it (now (c_env c)) (c_status c) (c_size c)) it cs.

Definition sum_sizes (l : list Z) : Z := foldr Z.add 0%Z l.

(** How many of the calls [cs] came with a status that [String] turns
    into the label [k]. *)
Definition labelled (k : string) (cs : list Call) : nat :=
  length (filter (λ c, String_of <$> c_status c = Some k) cs).

(** What every stored item satisfies: it sits under its own key, which is
    made of its method and endpoint; it was counted once at least; its
    statuses and sizes are not counted more often than it was called; it
    has a last size exactly when a size was counted, and a last status
    exactly when a status was counted, that status among them. *)
Definition item_ok (k : string) (it : Item.t) : Prop :=
  Item.key it = k ∧
  k = makeKey (Item.method it) (Item.endpoint it) ∧
  1 ≤ Item.count it ∧
  sum_values (Item.statusCounts it) ≤ Item.count it ∧
  Item.sizeKnownCount it ≤ Item.count it ∧
  (Item.lastSize it = None ↔ Item.sizeKnownCount it = 0) ∧
  (Item.lastStatus it = None ↔ Item.statusCounts it = ∅) ∧
  (∀ st, Item.lastStatus it = Some st →
         is_Some (Item.statusCounts it !! String_of st)).

Definition items_ok (data : TabData) : Prop :=
  ∀ k it, items data !! k = Some it → item_ok k it.

Definition store_items_ok (w : World) : Prop :=
  ∀ k data, session w !! k = Some data → items_ok data.

(** The follow-up events of a request: headers, completed, error. *)
Definition follow_up (a : Action) : option Details.t :=
  match a with
  | HeadersReceived d | Completed d | ErrorOccurred d => Some d
  | _ => None
  end.

Fixpoint has_space (s : string) : bool :=
  match s with
  | EmptyString => false
  | String c r => bool_decide (c = " "%char) || has_space r
  end.

(** A string of white space only. *)
Fixpoint blank (s : string) : bool :=
  match s with
  | EmptyString => true
  | String c r => JS.is_space c && blank r
  end.

(** A string that does not go on with a digit. *)
Definition no_digit_ahead (s : string) : Prop :=
  match s with
  | EmptyString => True
  | String c _ => JS.digit_of c = None
  end.

(** ** The popup's reading of a table *)

(** [data.order.map(k => data.items[k]).filter(Boolean)], the list the
    popup renders, copies and exports. *)
Definition itemsArray (data : TabData) : list Item.t :=
  omap (λ k, items data !! k) (order data).

(** ** Listeners that overlap

    The listeners are async functions, and nothing in the worker makes one
    wait for another. A listener runs until it awaits a storage call and
    goes on when that call settles, which is when the call takes effect
    here; events delivered in between find the world as it is then. [run]
    lets every listener finish before the next event is delivered; the
    definitions below stop a listener at each [await]. *)

(** A call of [upsertApiCall] that waits: for the settings, for the table,
    or for its write of the table it has made. *)
Inductive Upserting :=
| AwaitSettings (tabId : Z) (method endpoint : string)
                (statusCode : option Status) (sizeBytes : option Z)
| AwaitTable (settings : Settings) (tabId : Z) (method endpoint : string)
             (statusCode : option Status) (sizeBytes : option Z)
| AwaitWrite (tabId : Z) (data : TabData).

(** The call up to its first [await]: with a negative tab id it returns
    at once, [None]. *)
Definition upsert_called (tabId : Z) (method endpoint : string)
    (statusCode : option Status) (sizeBytes : option Z) : option Upserting :=
  if (tabId <? 0)%Z then None
  else Some (AwaitSettings tabId method endpoint statusCode sizeBytes).

(** The awaited call settles and the function runs on, to its next
    [await] or to its end, [None]. The table is updated, with the time of
    that moment, between its read and the call that writes it. *)
Definition upsert_resumed (u : Upserting) : M (option Upserting) :=
  match u with
  | AwaitSettings tabId method endpoint statusCode sizeBytes =>
      settings ← getSettings;
      mret (Some (AwaitTable settings tabId method endpoint statusCode sizeBytes))
  | AwaitTable settings tabId method endpoint statusCode sizeBytes =>
      data ← getTabData tabId;
      now ← Date_now;
      match upsert_table settings now data method endpoint statusCode sizeBytes with
      | Some data => mret (Some (AwaitWrite tabId data))
      | None => throw
      end
  | AwaitWrite tabId data =>
      setTabData tabId data;;
      mret None
  end.

(** A listener that waits: the start listener for the settings, a
    terminal listener (or a direct caller) for its upsert, with the request
    whose pending entry it deletes afterwards. *)
Inductive Task :=
| Starting (details : Details.t)
| Ending (u : Upserting) (requestId : option string).

(** What a terminal listener does around its upsert: it waits while the
    upsert waits, and deletes the pending entry once the upsert has
    returned. *)
Definition ending (requestId : option string) (u : option Upserting) : M (option Task) :=
  match u with
  | Some u => mret (Some (Ending u requestId))
  | None =>
      match requestId with
      | Some id => modify (with_cache (delete id))
      | None => mret tt
      end;;
      mret None
  end.

Section Overlap.
Context `{Host}.

(** An event is delivered: its listener runs up to its first [await].
    The start listener awaits the settings first of all. The terminal
    listeners read the pending entry, and with it the arguments of the
    upsert, before they await. The headers listener has no [await]. The
    remaining actions make one write at most and are taken whole. *)
Definition delivered (a : Action) : M (option Task) :=
  match a with
  | BeforeRequest d => mret (Some (Starting d))
  | Completed d =>
      meta ← read (λ w, requestCache w !! Details.requestId d);
      match meta with
      | None => mret None
      | Some meta =>
          ending (Some (Details.requestId d))
            (upsert_called (Meta.tabId meta) (Meta.method meta) (Meta.endpoint meta)
               (StatusCode <$> Details.statusCode d) (Meta.sizeBytes meta))
      end
  | ErrorOccurred d =>
      meta ← read (λ w, requestCache w !! Details.requestId d);
      match meta with
      | None => mret None
      | Some meta =>
          ending (Some (Details.requestId d))
            (upsert_called (Meta.tabId meta) (Meta.method meta) (Meta.endpoint meta)
               (Some (StatusText "ERR")) (Meta.sizeBytes meta))
      end
  | Upsert tabId method endpoint statusCode sizeBytes =>
      ending None (upsert_called tabId method endpoint statusCode sizeBytes)
  | HeadersReceived _ | TabRemoved _ | ClearTab | SettingsStored _ =>
      perform a;;
      mret None
  end.

(** A waiting listener goes on: everything [onBeforeRequest] does comes
    after its one [await]; an upsert takes its next step, and its listener
    ends with it. *)
Definition continued (t : Task) : M (option Task) :=
  match t with
  | Starting d =>
      onBeforeRequest d;;
      mret None
  | Ending u requestId =>
      u ← upsert_resumed u;
      ending requestId u
  end.

(** One step of the worker: an event is delivered, and its listener gets
    the next number, or the listener with number [i] goes on. A listener
    that has ended or thrown is [None]. *)
Inductive Step :=
| Deliver (a : Action)
| Continue (i : nat).

Definition step (s : Step) (e : Env) (st : list (option Task) * World)
    : list (option Task) * World :=
  let '(pool, w) := st in
  match s with
  | Deliver a =>
      match delivered a e w with
      | (Ok t, w') => (pool ++ [t], w')
      | (Throw, w') => (pool ++ [None], w')
      end
  | Continue i =>
      match pool !! i with
      | Some (Some t) =>
          match continued t e w with
          | (Ok t, w') => (<[i := t]> pool, w')
          | (Throw, w') => (<[i := None]> pool, w')
          end
      | _ => (pool, w)
      end
  end.

Definition overlapped (sched : list (Step * Env)) (st : list (option Task) * World)
    : list (option Task) * World :=
  foldl (λ st se, step se.1 se.2 st) st sched.



End Overlap.


(** The statuses the listeners pass to [upsertApiCall]: an integer that
    [String] prints as its decimal numeral, or the text ERR.
    [statusCounts] is a plain object; under these labels it shows nothing
    but what the code has put there, as the map does. *)
Definition listener_status (st : Status) : Prop :=
  match st with
  | StatusCode n => (Z.abs n < 2 ^ 53)%Z
  | StatusText s => s = "ERR"
  end.

(** [sizeSum] as the code adds it up, in doubles from 0 on: each sum is
    the double nearest to the exact one, [None] once that is an infinity. *)
Definition double_sum (sizes : list Z) : option Z :=
  foldl (λ acc n, a ← acc; JS.to_double (a + n)) (Some 0%Z) sizes.

(** ** The requests a run starts and ends *)

Definition starts (a : Action) : option string :=
  match a with
  | BeforeRequest d => Some (Details.requestId d)
  | _ => None
  end.

Definition ends (a : Action) : option string :=
  match a with
  | Completed d | ErrorOccurred d => Some (Details.requestId d)
  | _ => None
  end.

(** Two pending entries of one request: the length is all that a headers
    event changes. *)
Definition same_request (m1 m2 : Meta.t) : Prop :=
  Meta.tabId m1 = Meta.tabId m2 ∧ Meta.method m1 = Meta.method m2 ∧
  Meta.endpoint m1 = Meta.endpoint m2.

(** The length a headers event carries, as [onHeadersReceived] reads it. *)
Definition length_of (details : Details.t) : option Z :=
  toIntOrNull (getHeaderValue (Details.responseHeaders details) "content-length").

(** The pending entry [m] with the last of the lengths [sizes], its own
    when there is none. *)
Definition with_last_length (m : Meta.t) (sizes : list Z) : Meta.t :=
  {| Meta.tabId := Meta.tabId m; Meta.method := Meta.method m;
     Meta.endpoint := Meta.endpoint m;
     Meta.sizeBytes := match last sizes with
                       | Some n => Some n
                       | None => Meta.sizeBytes m
                       end |}.

(** ** The popup's settings checkbox *)

Module Popup.

(** popup.js has a [getSettings] of its own, which returns the stored object
    as it is: [stored.settings || {}]. *)
Definition getSettings : M StoredSettings :=
  stored ← storage_local_get;
  mret (default no_settings stored).

(** [chrome.storage.local.set({ settings })] replaces the stored object.
    This write is not one of the calls an [Env] decides on; [rejected] says
    whether it rejects. *)
Definition setSettings (rejected : bool) (settings : StoredSettings) : M unit :=
  if rejected then throw else modify (with_settings (Some settings)).

(** [{ ...current, includeQueryString: cb.checked }] *)
Definition checked_as (current : StoredSettings) (checked : bool) : StoredSettings :=
  {| st_captureTypes := st_captureTypes current;
     st_includeQueryString := Some checked;
     st_apiIncludePatterns := st_apiIncludePatterns current;
     st_apiExcludePatterns := st_apiExcludePatterns current;
     st_maxPerTab := st_maxPerTab current |}.

(** The [change] listener of the checkbox. *)
Definition onChange (rejected checked : bool) : M unit :=
  current ← getSettings;
  setSettings rejected (checked_as current checked).

(** [!!settings.includeQueryString], the state [init] gives the checkbox. *)
Definition includeQS : M bool :=
  settings ← getSettings;
  mret (default false (st_includeQueryString settings)).

End Popup.

(** ** The popup's sizes

    [fmtBytes] gets the last size of an item or the rounded average: a
    number with an integer value, or [null]. Dividing a double by 1024 only
    lowers its exponent, so [x] is the exact quotient, a rational. *)

Section Bytes.
Import QArith_base Qround Qabs.
Local Close Scope Q_scope.

Definition units : list string := ["B"; "KB"; "MB"; "GB"].

(** [while (x >= 1024 && i < units.length - 1) { x = x / 1024; i++ }],
    with [room] for [units.length - 1 - i]. *)
Fixpoint scaled (room : nat) (x : Q) (i : nat) : Q * nat :=
  match room with
  | O => (x, i)
  | S room =>
      if Qle_bool 1024 x then scaled room (x / 1024)%Q (S i) else (x, i)
  end.

Fixpoint zeros (k : nat) : string :=
  match k with
  | O => ""
  | S k => String "0" (zeros k)
  end.

(** [x.toFixed(f)]: the digits of the integer [n] nearest to [x * 10^f],
    the larger one of two, with a point before the last [f] of them and the
    sign in front. From [10^21] on JavaScript prints an exponent instead;
    that is [None] here. *)
Definition toFixed (f : nat) (x : Q) : option string :=
  if Qle_bool (inject_Z (10 ^ 21)) (Qabs x) then None else
  let n := Qfloor (Qabs x * inject_Z (10 ^ Z.of_nat f) + (1 # 2))%Q in
  let whole := (n / 10 ^ Z.of_nat f)%Z in
  let frac := pretty (n mod 10 ^ Z.of_nat f)%Z in
  Some ((if Qle_bool 0 x then "" else "-") +:+ pretty whole +:+
        (match f with
         | O => ""
         | S _ => "." +:+ zeros (f - String.length frac) +:+ frac
         end)).

(** The dash [fmtBytes] shows for [null], the one character of the popup
    above 255, here in its UTF-8 bytes. *)
Definition dash : string := "—".

Definition fmtBytes (n : option Z) : option string :=
  match n with
  | None => Some dash
  | Some n =>
      let '(x, i) := scaled (length units - 1) (inject_Z n) 0 in
      shown ← toFixed (if decide (i = 0) then 0 else 1) x;
      Some (shown +:+ " " +:+ default "undefined" (units !! i))
  end.

End Bytes.

(** What [fmtBytes] shows in the unit [1024^k], counted in tenths: the
    nearest number of tenths, the larger one of two. *)
Definition tenths (n : Z) (k : nat) : Z :=
  ((20 * n + 1024 ^ Z.of_nat k) / (2 * 1024 ^ Z.of_nat k))%Z.

(** A number of tenths, written with one decimal. *)
Definition one_decimal (t : Z) : string :=
  pretty (t / 10)%Z +:+ "." +:+ pretty (t mod 10)%Z.

(** * Properties *)

(** ** Running the monad *)

Ltac run_M :=
  repeat (unfold mbind, M_bind, mret, M_ret, throw, modify, read, Date_now,
          getActiveTabId, storage_call, storage_local_get, storage_session_get,
          storage_session_set, storage_session_remove, getSettings, getTabData,
          setTabData; simpl).

Lemma upsert_table_eq settings now data method endpoint st sz :
  upsert_table settings now data method endpoint st sz
  = Some (upserted settings now data method endpoint st sz).
Proof.
  unfold upsert_table, upserted, ensure_item.
  destruct (items data !! makeKey method endpoint) as [it|] eqn:Hit; simpl.
  - by rewrite Hit.
  - rewrite lookup_insert_eq. simpl. by rewrite insert_insert_eq.
Qed.

(** An upsert for a tab id that is not negative, when no storage call
    rejects: one read of the settings, one read and one write of the
    table. *)
Lemma upsertApiCall_quiet tabId method endpoint st sz e w :
  (0 ≤ tabId)%Z → quiet e →
  upsertApiCall tabId method endpoint st sz e w
  = (Ok tt, written w tabId
              (upserted (settings_of w) (now e) (table_of w tabId)
                 method endpoint st sz)).
Proof.
  intros Htab Hq. unfold upsertApiCall.
  destruct (tabId <? 0)%Z eqn:Hneg; [lia|].
  run_M. rewrite !Hq. simpl. rewrite upsert_table_eq. run_M.
  by rewrite Hq.
Qed.

(** Whatever rejects, an upsert leaves the correlator and the settings
    alone, and the session either as it was or with the one table
    written. *)
Lemma upsertApiCall_cases tabId method endpoint st sz e w :
  ∃ r w',
    upsertApiCall tabId method endpoint st sz e w = (r, w') ∧
    requestCache w' = requestCache w ∧
    local_settings w' = local_settings w ∧
    (session w' = session w ∨
     (0 ≤ tabId)%Z ∧ r = Ok tt ∧
     session w' = <[tabKey tabId :=
                     upserted (settings_of w) (now e) (table_of w tabId)
                       method endpoint st sz]> (session w)).
Proof.
  unfold upsertApiCall.
  destruct (tabId <? 0)%Z eqn:Hneg.
  { eexists _, _. split; [reflexivity|]. auto. }
  run_M.
  destruct (rejects e LocalGet); simpl.
  { eexists _, _. split; [reflexivity|]. auto. }
  destruct (rejects e (SessionGet (tabKey tabId))); simpl.
  { eexists _, _. split; [reflexivity|]. auto. }
  rewrite upsert_table_eq. run_M.
  destruct (rejects e (SessionSet (tabKey tabId))); simpl.
  { eexists _, _. split; [reflexivity|]. auto. }
  eexists _, _. split; [reflexivity|]. simpl.
  split; [done|]. split; [done|]. right. split; [lia|]. done.
Qed.

(** An upsert throws exactly when its tab id is not negative and one of
    its three storage calls rejects. *)
Lemma upsertApiCall_throws tabId method endpoint st sz e w :
  (upsertApiCall tabId method endpoint st sz e w).1 = Throw ↔
  (0 ≤ tabId)%Z ∧
  (rejects e LocalGet = true ∨ rejects e (SessionGet (tabKey tabId)) = true ∨
   rejects e (SessionSet (tabKey tabId)) = true).
Proof.
  unfold upsertApiCall.
  destruct (tabId <? 0)%Z eqn:Hneg; simpl.
  { split; [done|]. lia. }
  run_M.
  destruct (rejects e LocalGet); simpl; [split; [auto with lia|done]|].
  destruct (rejects e (SessionGet (tabKey tabId))); simpl; [split; [auto with lia|done]|].
  rewrite upsert_table_eq. run_M.
  destruct (rejects e (SessionSet (tabKey tabId))); simpl; [split; [auto with lia|done]|].
  split; [done|]. intros [_ [?|[?|?]]]; done.
Qed.

(** ** The examples of the specification, run on the fixture *)

(** A request is started, its headers arrive, it completes with 200. *)
Example tracked_request :
  let w :=
    run (H:=Fixture.host)
      [(BeforeRequest (Fixture.request "1" 5 "https://x.com/api/users?x=1"),
        Fixture.clock 10);
       (HeadersReceived
          (Fixture.response "1" [{| name := "content-length"; value := Some "120" |}] None),
        Fixture.clock 11);
       (Completed (Fixture.response "1" [] (Some 200%Z)), Fixture.clock 12)]
      Fixture.world in
  requestCache w = ∅ ∧
  order (table_of w 5) = ["GET https://x.com/api/users"] ∧
  items (table_of w 5) !! "GET https://x.com/api/users"
  = Some {| Item.key := "GET https://x.com/api/users"; Item.method := "GET";
            Item.endpoint := "https://x.com/api/users";
            Item.count := 1; Item.firstSeen := 12; Item.lastSeen := 12;
            Item.lastStatus := Some (StatusCode 200);
            Item.statusCounts := {[ "200" := 1 ]};
            Item.sizeKnownCount := 1; Item.sizeSum := 120;
            Item.lastSize := Some 120%Z |}.
Proof. by vm_compute. Qed.

(** A string that is no URL is classified as it is; an exclude pattern
    wins over an include pattern, and the completed event of a request that
    was never pending does nothing. *)
Example excluded_request :
  let d := Fixture.request "2" 5 "x.com/static/api/app" in
  let w := run (H:=Fixture.host) [(BeforeRequest d, Fixture.clock 10)] Fixture.world in
  normalizeUrl (H:=Fixture.host) "x.com/static/api/app" false = "x.com/static/api/app" ∧
  requestCache w = ∅ ∧
  onCompleted (Fixture.response "2" [] (Some 200%Z)) (Fixture.clock 11) w = (Ok tt, w).
Proof. by vm_compute. Qed.

(** A request ends with an error. *)
Example failed_request :
  let w :=
    run (H:=Fixture.host)
      [(BeforeRequest (Fixture.request "3" 5 "https://x.com/api/orders"), Fixture.clock 10);
       (ErrorOccurred (Fixture.response "3" [] None), Fixture.clock 11)]
      Fixture.world in
  (Item.lastStatus <$> items (table_of w 5) !! "GET https://x.com/api/orders")
  = Some (Some (StatusText "ERR")) ∧
  (Item.statusCounts <$> items (table_of w 5) !! "GET https://x.com/api/orders")
  = Some {[ "ERR" := 1 ]}.
Proof. by vm_compute. Qed.

(** A tab closes: its table is gone and a reader gets the empty table. *)
Example closed_tab :
  let w :=
    run (H:=Fixture.host)
      [(Upsert 5 "GET" "https://x.com/api/users" (Some (StatusCode 200)) None,
        Fixture.clock 10);
       (TabRemoved 5, Fixture.clock 11)]
      Fixture.world in
  session w = ∅ ∧ table_of w 5 = empty_tab.
Proof. by vm_compute. Qed.

(** ** Negative tab ids *)

Lemma upsertApiCall_negative tabId method endpoint st sz e w :
  (tabId < 0)%Z → upsertApiCall tabId method endpoint st sz e w = (Ok tt, w).
Proof.
  intros Hneg. unfold upsertApiCall.
  destruct (tabId <? 0)%Z eqn:E; [done|lia].
Qed.

Lemma terminal_negative details meta e w :
  requestCache w !! Details.requestId details = Some meta →
  (Meta.tabId meta < 0)%Z →
  let w' := with_cache (delete (Details.requestId details)) w in
  onCompleted details e w = (Ok tt, w') ∧ onErrorOccurred details e w = (Ok tt, w').
Proof.
  intros Hmeta Hneg. simpl.
  unfold onCompleted, onErrorOccurred. run_M. rewrite Hmeta.
  by rewrite !upsertApiCall_negative.
Qed.

(** C10. An upsert for a negative tab id returns at once: it makes no
    storage call and leaves the whole world, every tab's table included,
    as it was. When a pending entry with such a tab id reaches its
    completed or error event, the listener returns, and the only change is
    that the entry leaves the correlator. *)
Theorem negative_tab_leaves_store (tabId : Z) :
  (tabId < 0)%Z →
  (∀ method endpoint st sz e w,
     upsertApiCall tabId method endpoint st sz e w = (Ok tt, w)) ∧
  (∀ details meta e w,
     requestCache w !! Details.requestId details = Some meta →
     Meta.tabId meta = tabId →
     let w' := with_cache (delete (Details.requestId details)) w in
     onCompleted details e w = (Ok tt, w') ∧
     onErrorOccurred details e w = (Ok tt, w') ∧
     session w' = session w ∧ calls w' = calls w).
Proof.
  intros Hneg. split.
  - intros. by apply upsertApiCall_negative.
  - intros details meta e w Hmeta <-.
    destruct (terminal_negative details meta e w Hmeta Hneg) as [Hc He].
    by repeat split.
Qed.

Lemma negative_tab_leaves_store_witness :
  upsertApiCall (-1) "GET" "https://x.com/api/users" (Some (StatusCode 200))
    (Some 120%Z) (Fixture.clock 12) Fixture.world
  = (Ok tt, Fixture.world).
Proof.
  apply (negative_tab_leaves_store (-1)). lia.
Defined.

(** ** Terminal events and the pending entry *)

(** Claim C3 does not hold: request 7 is pending for tab 5, its completed
    event arrives while the write of the table rejects; the listener
    throws and request 7 is still in the correlator. *)
Lemma pending_entry_outlives_failed_upsert :
  let meta := {| Meta.tabId := 5; Meta.method := "GET";
                 Meta.endpoint := "https://x.com/api/users";
                 Meta.sizeBytes := None |} in
  let w := with_cache (insert "7" meta) Fixture.world in
  let out := onCompleted (Fixture.response "7" [] (Some 200%Z))
               (Fixture.full 12) w in
  requestCache w !! "7" = Some meta ∧
  out.1 = Throw ∧
  requestCache out.2 !! "7" = Some meta.
Proof. vm_compute. auto. Qed.

(** C3, amended. For a completed or error event whose request is pending,
    the listener deletes the entry once the upsert has returned; when the
    upsert throws, the listener throws with it and the entry stays. The
    upsert throws exactly when the tab id is not negative and one of its
    storage calls rejects. *)
Theorem terminal_event_consumes_after_upsert details meta e w :
  requestCache w !! Details.requestId details = Some meta →
  let id := Details.requestId details in
  let upsert st :=
    upsertApiCall (Meta.tabId meta) (Meta.method meta) (Meta.endpoint meta)
      st (Meta.sizeBytes meta) in
  consumes (onCompleted details)
    (upsert (StatusCode <$> Details.statusCode details)) id meta e w ∧
  consumes (onErrorOccurred details)
    (upsert (Some (StatusText "ERR"))) id meta e w ∧
  ∀ st,
    (upsert st e w).1 = Throw ↔
    (0 ≤ Meta.tabId meta)%Z ∧
    (rejects e LocalGet = true ∨
     rejects e (SessionGet (tabKey (Meta.tabId meta))) = true ∨
     rejects e (SessionSet (tabKey (Meta.tabId meta))) = true).
Proof.
  intros Hmeta. simpl.
  assert (∀ handler st,
    (∀ e w, handler e w =
       (meta ← read (λ w, requestCache w !! Details.requestId details);
        match meta with
        | None => mret tt
        | Some meta =>
            upsertApiCall (Meta.tabId meta) (Meta.method meta) (Meta.endpoint meta)
              st (Meta.sizeBytes meta);;
            modify (with_cache (delete (Details.requestId details)))
        end) e w) →
    consumes handler
      (upsertApiCall (Meta.tabId meta) (Meta.method meta) (Meta.endpoint meta)
         st (Meta.sizeBytes meta))
      (Details.requestId details) meta e w) as Hgen.
  { intros handler st Hh. unfold consumes. rewrite Hh. run_M. rewrite Hmeta.
    destruct (upsertApiCall_cases (Meta.tabId meta) (Meta.method meta)
                (Meta.endpoint meta) st (Meta.sizeBytes meta) e w)
      as (r & w1 & -> & Hc & _ & _).
    destruct r as [[]|]; simpl.
    - split; [done|]. apply lookup_delete_eq.
    - split; [done|]. by rewrite Hc. }
  split; [by apply Hgen|]. split; [by apply Hgen|].
  intros st. apply upsertApiCall_throws.
Qed.

Lemma terminal_event_consumes_after_upsert_witness :
  let meta := {| Meta.tabId := 5; Meta.method := "GET";
                 Meta.endpoint := "https://x.com/api/users";
                 Meta.sizeBytes := None |} in
  let w := with_cache (insert "7" meta) Fixture.world in
  let d := Fixture.response "7" [] (Some 200%Z) in
  consumes (onCompleted d)
    (upsertApiCall (Meta.tabId meta) (Meta.method meta) (Meta.endpoint meta)
       (StatusCode <$> Details.statusCode d) (Meta.sizeBytes meta))
    (Details.requestId d) meta (Fixture.clock 12) w.
Proof.
  intros meta w d.
  refine (proj1 (terminal_event_consumes_after_upsert d meta (Fixture.clock 12) w _)).
  vm_compute. reflexivity.
Defined.

(** ** Pattern classifier *)

Lemma or_else_string (s : string) : JS.or_else (Some s) "" = s.
Proof. unfold JS.or_else. by case_decide. Qed.

Section ClassifierFacts.
Context `{Host}.

Lemma safeRegexList_loop (out : list RegExp) (ps : list string) :
  foldl (λ out p,
           match RegExp_new p "i" with
           | Some r => out ++ [r]
           | None => out
           end) out ps
  = out ++ omap (λ p, RegExp_new p "i") ps.
Proof.
  revert out. induction ps as [|p ps IH]; intros out; simpl.
  - by rewrite app_nil_r.
  - rewrite IH. destruct (RegExp_new p "i"); simpl; [|done].
    by rewrite <- app_assoc.
Qed.

Lemma safeRegexList_omap (ps : list string) :
  safeRegexList (Some ps) = omap (λ p, RegExp_new p "i") ps.
Proof. unfold safeRegexList. simpl. by rewrite safeRegexList_loop. Qed.

Lemma some_test (rs : list RegExp) (s : string) :
  existsb (λ r, RegExp_test r s) rs = true ↔
  ∃ r, r ∈ rs ∧ RegExp_test r s = true.
Proof.
  rewrite existsb_exists. split; intros (r & Hr & Ht); exists r.
  - by rewrite list_elem_of_In.
  - by rewrite <- list_elem_of_In.
Qed.

Lemma by_length {A} (l : list A) (b d : bool) :
  match length l with O => d | S _ => b end = if decide (l = []) then d else b.
Proof. by destruct l. Qed.

(** C4. The patterns of a list that compile, with the flag [i], in their
    order, are the compiled set; a pattern that does not compile is left
    out and the set is the one the list without it gives. An endpoint is
    API traffic exactly when the include set is empty or one of its
    patterns matches, and no pattern of the exclude set matches. *)
Theorem isApiUrl_decision (url : string) (settings : Settings) :
  let compiled ps := omap (λ p, RegExp_new p "i") ps in
  let inc := compiled (apiIncludePatterns settings) in
  let exc := compiled (apiExcludePatterns settings) in
  safeRegexList (Some (apiIncludePatterns settings)) = inc ∧
  safeRegexList (Some (apiExcludePatterns settings)) = exc ∧
  (∀ ps1 p ps2,
     RegExp_new p "i" = None →
     safeRegexList (Some (ps1 ++ p :: ps2)) = safeRegexList (Some (ps1 ++ ps2))) ∧
  (isApiUrl (Some url) settings = true ↔
     (inc = [] ∨ ∃ r, r ∈ inc ∧ RegExp_test r url = true) ∧
     ¬ ∃ r, r ∈ exc ∧ RegExp_test r url = true).
Proof.
  simpl. split; [apply safeRegexList_omap|]. split; [apply safeRegexList_omap|].
  split.
  { intros ps1 p ps2 Hp. rewrite !safeRegexList_omap, !omap_app. simpl.
    by rewrite Hp. }
  unfold isApiUrl. rewrite !safeRegexList_omap, or_else_string, !by_length.
  rewrite andb_true_iff, negb_true_iff.
  set (inc := omap _ (apiIncludePatterns settings)).
  set (exc := omap _ (apiExcludePatterns settings)).
  assert ((if decide (exc = []) then false
           else existsb (λ r, RegExp_test r url) exc) = false ↔
          ¬ ∃ r, r ∈ exc ∧ RegExp_test r url = true) as ->.
  { case_decide as Hexc.
    - rewrite Hexc. split; [|done]. intros _ (r & Hr & _). by apply elem_of_nil in Hr.
    - rewrite <- some_test. by destruct (existsb _ exc). }
  apply and_iff_compat_r.
  case_decide as Hinc.
  - split; auto.
  - rewrite some_test. split; [auto|]. by intros [?|?].
Qed.

(** ** URL normaliser *)

(** C8. Two URLs that parse and have the same origin and path normalise
    to the same endpoint, the origin followed by the path, when the query
    string is left out, and to different endpoints when it is kept and
    their query strings differ. A string that does not parse is returned
    as it is; [normalizeUrl] is a total function, it has no way to
    throw. *)
Theorem normalizeUrl_query :
  (∀ raw1 raw2 u1 u2,
     URL_new raw1 = Some u1 → URL_new raw2 = Some u2 →
     origin u1 = origin u2 → pathname u1 = pathname u2 →
     normalizeUrl raw1 false = origin u1 +:+ pathname u1 ∧
     normalizeUrl raw1 false = normalizeUrl raw2 false ∧
     (search u1 ≠ search u2 →
      normalizeUrl raw1 true ≠ normalizeUrl raw2 true)) ∧
  (∀ raw flag, URL_new raw = None → normalizeUrl raw flag = raw).
Proof.
  split.
  - intros raw1 raw2 u1 u2 H1 H2 Ho Hp. unfold normalizeUrl.
    rewrite H1, H2, Ho, Hp. split; [done|]. split; [done|].
    intros Hs Heq. apply Hs.
    by apply (inj (String.app (pathname u2))), (inj (String.app (origin u2))).
  - intros raw flag Hraw. unfold normalizeUrl. by rewrite Hraw.
Qed.

End ClassifierFacts.

Lemma normalizeUrl_query_witness :
  normalizeUrl (H:=Fixture.host) "https://x.com/api/users?x=1" false
  = normalizeUrl (H:=Fixture.host) "https://x.com/api/users?x=2" false ∧
  normalizeUrl (H:=Fixture.host) "https://x.com/api/users?x=1" true
  ≠ normalizeUrl (H:=Fixture.host) "https://x.com/api/users?x=2" true ∧
  normalizeUrl (H:=Fixture.host) "not a url" true = "not a url".
Proof.
  destruct (@normalizeUrl_query Fixture.host) as [Hparsed Hraw].
  destruct (Hparsed "https://x.com/api/users?x=1" "https://x.com/api/users?x=2"
              {| origin := "https://x.com"; pathname := "/api/users"; search := "?x=1" |}
              {| origin := "https://x.com"; pathname := "/api/users"; search := "?x=2" |}
              eq_refl eq_refl eq_refl eq_refl) as (_ & Hsame & Hdiff).
  split; [exact Hsame|]. split.
  - apply Hdiff. simpl. discriminate.
  - apply Hraw. reflexivity.
Defined.

(** ** Tables stay consistent *)

Lemma lookup_foldl_delete {A} (l : list string) (m : gmap string A) (k : string) :
  foldl (λ m rk, delete rk m) m l !! k = if decide (k ∈ l) then None else m !! k.
Proof.
  revert m. induction l as [|x l IH]; intros m.
  - destruct (decide (k ∈ [])) as [Hk|Hk]; [by apply elem_of_nil in Hk|done].
  - cbn [foldl]. rewrite IH.
    destruct (decide (k ∈ l)) as [Hin|Hnin].
    + rewrite decide_True; [done|]. by apply elem_of_cons; right.
    + destruct (decide (k = x)) as [->|Hne].
      * rewrite decide_True by (apply elem_of_cons; by left).
        apply lookup_delete_eq.
      * rewrite decide_False; [by rewrite lookup_delete_ne|].
        rewrite elem_of_cons. tauto.
Qed.

(** The table cut after its [n] first keys. *)
Lemma enforce_limit_nonneg data (maxPerTab : Z) :
  (0 ≤ maxPerTab)%Z →
  enforce_limit data maxPerTab
  = {| items := foldl (λ m rk, delete rk m) (items data)
                  (drop (Z.to_nat maxPerTab) (order data));
       order := take (Z.to_nat maxPerTab) (order data) |}.
Proof.
  intros Hm. unfold enforce_limit, JS.splice.
  destruct (maxPerTab <? Z.of_nat (length (order data)))%Z eqn:Hlt.
  - destruct (maxPerTab <? 0)%Z eqn:Hneg; [lia|].
    by rewrite Z.min_l by lia.
  - rewrite take_ge, drop_ge by lia. by destruct data.
Qed.

Lemma enforce_limit_cut data (maxPerTab : Z) :
  ∃ n, enforce_limit data maxPerTab
       = {| items := foldl (λ m rk, delete rk m) (items data) (drop n (order data));
            order := take n (order data) |}.
Proof.
  unfold enforce_limit, JS.splice.
  destruct (maxPerTab <? Z.of_nat (length (order data)))%Z.
  - by eexists.
  - exists (length (order data)). rewrite take_ge, drop_ge by lia. by destruct data.
Qed.

Lemma consistent_cut data n :
  consistent data →
  consistent {| items := foldl (λ m rk, delete rk m) (items data) (drop n (order data));
                order := take n (order data) |}.
Proof.
  intros [Hnd Hkeys]. unfold consistent; simpl.
  rewrite <- (take_drop n (order data)) in Hnd.
  apply NoDup_app in Hnd as (Hnd1 & Hdisj & _).
  split; [done|]. intros k. rewrite lookup_foldl_delete.
  case_decide as Hk.
  - split; [intros Hin; by destruct (Hdisj k)|]. by intros [? ?].
  - rewrite <- Hkeys. rewrite <- (take_drop n (order data)) at 2.
    rewrite elem_of_app. tauto.
Qed.

Lemma enforce_limit_consistent data maxPerTab :
  consistent data → consistent (enforce_limit data maxPerTab).
Proof.
  intros Hc. destruct (enforce_limit_cut data maxPerTab) as [n ->].
  by apply consistent_cut.
Qed.

Lemma upserted_consistent settings now data method endpoint st sz :
  consistent data →
  consistent (upserted settings now data method endpoint st sz).
Proof.
  intros [Hnd Hkeys]. apply enforce_limit_consistent.
  unfold consistent; simpl.
  set (key := makeKey method endpoint).
  destruct (items data !! key) as [it|] eqn:Hit; simpl.
  - split; [done|]. intros k. rewrite Hkeys.
    destruct (decide (k = key)) as [->|Hne].
    + rewrite lookup_insert_eq, Hit. split; eauto.
    + by rewrite lookup_insert_ne.
  - split.
    + apply NoDup_cons. split; [|done]. rewrite Hkeys, Hit. by intros [? ?].
    + intros k. rewrite elem_of_cons, Hkeys.
      destruct (decide (k = key)) as [->|Hne].
      * rewrite lookup_insert_eq. split; eauto.
      * rewrite lookup_insert_ne by done. tauto.
Qed.

Lemma empty_tab_consistent : consistent empty_tab.
Proof.
  split; simpl; [constructor|]. intros k. rewrite lookup_empty.
  split; [by intros ?%elem_of_nil|by intros [? ?]].
Qed.

Lemma consistent_sizes data :
  consistent data →
  dom (items data) = list_to_set (order data) ∧
  length (order data) = size (items data).
Proof.
  intros [Hnd Hkeys].
  assert (dom (items data) = list_to_set (order data)) as Hdom.
  { apply set_eq. intros k. rewrite elem_of_dom, elem_of_list_to_set. by rewrite Hkeys. }
  split; [done|].
  rewrite <- size_dom, Hdom. by rewrite size_list_to_set.
Qed.

(** What an action can do to the session storage: nothing, remove a
    table, store an empty table, or store the table of an upsert. *)
Lemma perform_session `{Host} (a : Action) (e : Env) (w : World) :
  let w' := (perform a e w).2 in
  session w' = session w ∨
  (∃ k, session w' = delete k (session w)) ∨
  (∃ k, session w' = <[k := empty_tab]> (session w)) ∨
  (∃ tabId settings now method endpoint st sz,
     session w' = <[tabKey tabId :=
                     upserted settings now (table_of w tabId) method endpoint st sz]>
                    (session w)).
Proof.
  assert (∀ tabId method endpoint st sz r w1,
    upsertApiCall tabId method endpoint st sz e w = (r, w1) →
    session w1 = session w ∨
    (∃ k, session w1 = delete k (session w)) ∨
    (∃ k, session w1 = <[k := empty_tab]> (session w)) ∨
    (∃ tabId settings now method endpoint st sz,
       session w1 = <[tabKey tabId :=
                       upserted settings now (table_of w tabId) method endpoint st sz]>
                      (session w))) as Hup.
  { intros tabId method endpoint st sz r w1 Heq.
    destruct (upsertApiCall_cases tabId method endpoint st sz e w)
      as (r' & w1' & Heq' & _ & _ & Hs).
    rewrite Heq in Heq'. injection Heq' as <- <-.
    destruct Hs as [->|(_ & _ & ->)]; [by left|].
    right. right. right. by eexists _, _, _, _, _, _, _. }
  destruct a as [d|d|d|d|tabId|tabId method endpoint st sz| |s]; simpl.
  - unfold onBeforeRequest. run_M.
    destruct (rejects e LocalGet); simpl; [by left|].
    destruct (negb _); simpl; [by left|].
    destruct (negb _); simpl; by left.
  - unfold onHeadersReceived. run_M.
    destruct (requestCache w !! Details.requestId d); simpl; by left.
  - unfold onCompleted. run_M.
    destruct (requestCache w !! Details.requestId d) as [meta|]; simpl; [|by left].
    destruct (upsertApiCall _ _ _ _ _ e w) as [r w1] eqn:Heq.
    apply Hup in Heq. by destruct r as [[]|].
  - unfold onErrorOccurred. run_M.
    destruct (requestCache w !! Details.requestId d) as [meta|]; simpl; [|by left].
    destruct (upsertApiCall _ _ _ _ _ e w) as [r w1] eqn:Heq.
    apply Hup in Heq. by destruct r as [[]|].
  - unfold onRemoved. run_M.
    destruct (rejects e _); simpl; [by left|]. right. left. by eexists.
  - destruct (upsertApiCall _ _ _ _ _ e w) as [r w1] eqn:Heq.
    by apply Hup in Heq.
  - unfold clearTab, refresh. run_M.
    destruct (activeTab e) as [tabId|] eqn:Hact; simpl; [|by left].
    case_decide; simpl; [by left|].
    destruct (rejects e (SessionSet _)); simpl; [by left|].
    rewrite Hact, decide_False by done. run_M.
    destruct (rejects e (SessionGet _)); simpl; right; right; left; by eexists.
  - by left.
Qed.

Lemma perform_consistent `{Host} a e w :
  store_consistent w → store_consistent (perform a e w).2.
Proof.
  intros Hw k data.
  destruct (perform_session a e w)
    as [->|[[k' ->]|[[k' ->]|(tabId & s & n & m & ep & st & sz & ->)]]].
  - apply Hw.
  - intros [_ ?]%lookup_delete_Some. by eapply Hw.
  - intros [[_ <-]|[_ ?]]%lookup_insert_Some;
      [apply empty_tab_consistent|by eapply Hw].
  - intros [[_ <-]|[_ ?]]%lookup_insert_Some; [|by eapply Hw].
    apply upserted_consistent. unfold table_of.
    destruct (session w !! tabKey tabId) as [d0|] eqn:Hd0; simpl;
      [by eapply Hw|apply empty_tab_consistent].
Qed.

Lemma run_consistent `{Host} acts w :
  store_consistent w → store_consistent (run acts w).
Proof.
  revert w. induction acts as [|[a e] acts IH]; intros w Hw; simpl; [done|].
  by apply IH, perform_consistent.
Qed.

(** C9. Start from a session storage without tables and let anything
    happen: web request events, direct upserts with any arguments, Clear,
    tabs closing, settings changing, storage calls rejecting. In every
    table then stored, [items] has exactly the keys of [order], no key is
    twice in [order], and so [order] is as long as there are items. *)
Theorem stored_tables_are_consistent `{Host} (acts : list (Action * Env)) (w : World)
    (k : string) (data : TabData) :
  session w = ∅ →
  session (run acts w) !! k = Some data →
  dom (items data) = list_to_set (order data) ∧
  NoDup (order data) ∧
  length (order data) = size (items data).
Proof.
  intros Hw Hk.
  assert (consistent data) as Hc.
  { eapply (run_consistent acts w); [|done].
    intros k' d'. by rewrite Hw, lookup_empty. }
  destruct (consistent_sizes data Hc) as [? ?]. by destruct Hc.
Qed.

Lemma stored_tables_are_consistent_witness :
  let acts :=
    [(BeforeRequest (Fixture.request "1" 5 "https://x.com/api/users?x=1"), Fixture.clock 10);
     (Completed (Fixture.response "1" [] (Some 200%Z)), Fixture.clock 12);
     (Upsert 5 "POST" "https://x.com/api/orders" (Some (StatusText "ERR")) None,
      Fixture.clock 13);
     (Upsert 5 "PUT" "https://x.com/api/orders" None None, Fixture.clock 14)] in
  let data := table_of (run (H:=Fixture.host) acts Fixture.world) 5 in
  dom (items data) = list_to_set (order data) ∧
  NoDup (order data) ∧
  length (order data) = size (items data).
Proof.
  intros acts data.
  apply (@stored_tables_are_consistent Fixture.host acts Fixture.world "tab:5" data).
  - reflexivity.
  - vm_compute. reflexivity.
Defined.

(** ** Listeners one after the other *)

(** [upsertApiCall], cut at its three [await]s, is the function itself. *)
Lemma upsertApiCall_cut tabId method endpoint st sz e w :
  upsertApiCall tabId method endpoint st sz e w
  = match upsert_called tabId method endpoint st sz with
    | None => mret tt
    | Some u =>
        u ← upsert_resumed u;
        match u with
        | None => mret tt
        | Some u =>
            u ← upsert_resumed u;
            match u with
            | None => mret tt
            | Some u => upsert_resumed u;; mret tt
            end
        end
    end e w.
Proof.
  unfold upsertApiCall, upsert_called.
  destruct (tabId <? 0)%Z; [done|].
  cbn [upsert_resumed]. run_M.
  destruct (rejects e LocalGet); simpl; [done|].
  cbn [upsert_resumed]. run_M.
  destruct (rejects e (SessionGet (tabKey tabId))); simpl; [done|].
  rewrite upsert_table_eq. run_M. cbn [upsert_resumed]. run_M.
  by destruct (rejects e (SessionSet (tabKey tabId))).
Qed.


Section OverlapFacts.
Context `{Host}.
Local Arguments step : simpl never.
Local Arguments overlapped : simpl never.








End OverlapFacts.

(** ** Counting the calls of one endpoint *)

Lemma sum_values_bump (m : gmap string nat) (s : string) :
  sum_values (<[s := default 0 (m !! s) + 1]> m) = sum_values m + 1.
Proof.
  unfold sum_values.
  assert (∀ (j1 j2 : string) (z1 z2 y : nat), z1 + (z2 + y) = z2 + (z1 + y)) as Hcomm
    by (intros; lia).
  destruct (m !! s) as [v|] eqn:Hs; simpl.
  - rewrite <- insert_delete_eq.
    rewrite map_fold_insert_L; [|by intros; apply Hcomm|apply lookup_delete_eq].
    rewrite (map_fold_delete_L _ _ s v m); [lia|by intros; apply Hcomm|done].
  - rewrite map_fold_insert_L; [lia|by intros; apply Hcomm|done].
Qed.

Lemma recorded_count it now st sz :
  Item.count (recorded it now st sz) = Item.count it + 1.
Proof. unfold recorded. by destruct st, sz. Qed.


Lemma recorded_lastStatus it now st sz :
  Item.lastStatus (recorded it now st sz)
  = match st with Some s => Some s | None => Item.lastStatus it end.
Proof. unfold recorded. by destruct st, sz. Qed.

Lemma recorded_statusCounts_None it now sz :
  Item.statusCounts (recorded it now None sz) = Item.statusCounts it.
Proof. unfold recorded. by destruct sz. Qed.

Lemma recorded_sum it now st sz :
  sum_values (Item.statusCounts (recorded it now st sz))
  = sum_values (Item.statusCounts it) + match st with Some _ => 1 | None => 0 end.
Proof.
  unfold recorded. destruct st as [s|], sz; simpl; try lia;
    apply sum_values_bump.
Qed.

(** With room for one key at least, the key of an upsert heads [order]
    after it and is not evicted, whether it was new or already at the
    head. *)
Lemma upserted_tracked settings now data method endpoint st sz it0 :
  (1 ≤ maxPerTab settings)%Z →
  let key := makeKey method endpoint in
  ((items data !! key = None ∧ (key ∉ order data) ∧
    it0 = new_item key method endpoint now) ∨ tracked data key it0) →
  tracked (upserted settings now data method endpoint st sz) key
    (recorded it0 now st sz).
Proof.
  intros Hmax key Hcase. unfold upserted. fold key.
  rewrite enforce_limit_nonneg by lia. simpl.
  assert (∃ rest,
            match items data !! key with
            | Some _ => order data
            | None => key :: order data
            end = key :: rest ∧ (key ∉ rest) ∧
            default (new_item key method endpoint now) (items data !! key) = it0)
    as (rest & -> & Hrest & ->).
  { destruct Hcase as [(-> & Hnin & ->)|[-> (rest & -> & Hrest)]]; by eexists. }
  fold (recorded it0 now st sz).
  destruct (Z.to_nat (maxPerTab settings)) as [|n] eqn:Hn; [lia|].
  unfold tracked. simpl. split.
  - rewrite lookup_foldl_delete, decide_False, lookup_insert_eq; [done|].
    intros Hin. apply Hrest. by apply (subseteq_drop n rest).
  - exists (take n rest). split; [done|].
    intros Hin. apply Hrest. by apply (subseteq_take n rest).
Qed.

Lemma upserts_snoc tabId cs c w :
  upserts tabId (cs ++ [c]) w
  = (upsertApiCall tabId (c_method c) (c_endpoint c) (c_status c) (c_size c)
       (c_env c) (upserts tabId cs w)).2.
Proof. unfold upserts. by rewrite foldl_snoc. Qed.

Lemma upserts_settings tabId cs w :
  settings_of (upserts tabId cs w) = settings_of w.
Proof.
  induction cs as [|c cs IH] using rev_ind; [done|].
  rewrite upserts_snoc.
  destruct (upsertApiCall_cases tabId (c_method c) (c_endpoint c) (c_status c)
              (c_size c) (c_env c) (upserts tabId cs w))
    as (r & w1 & -> & _ & Hs & _).
  unfold settings_of in *. simpl. by rewrite Hs.
Qed.

(** One more quiet call: the tab's table is the upserted one. *)
Lemma upserts_snoc_table tabId cs c w :
  (0 ≤ tabId)%Z → quiet (c_env c) →
  session (upserts tabId (cs ++ [c]) w) !! tabKey tabId
  = Some (upserted (settings_of w) (now (c_env c))
            (table_of (upserts tabId cs w) tabId)
            (c_method c) (c_endpoint c) (c_status c) (c_size c)).
Proof.
  intros Htab Hq. rewrite upserts_snoc, upsertApiCall_quiet by done.
  simpl. by rewrite lookup_insert_eq, upserts_settings.
Qed.






(** ** Eviction *)



(** The table after one upsert, when the limit is not negative: the key
    goes to the head of [order] if it is new, [order] is cut after
    [maxPerTab] keys, and the items of the keys cut off are deleted. *)
Lemma upserted_shape settings now data method endpoint st sz :
  (0 ≤ maxPerTab settings)%Z →
  let key := makeKey method endpoint in
  let all := match items data !! key with
             | Some _ => order data
             | None => key :: order data
             end in
  let it := recorded (default (new_item key method endpoint now) (items data !! key))
              now st sz in
  let data' := upserted settings now data method endpoint st sz in
  order data' = take (Z.to_nat (maxPerTab settings)) all ∧
  ∀ k, items data' !! k
       = if decide (k ∈ drop (Z.to_nat (maxPerTab settings)) all) then None
         else <[key := it]> (items data) !! k.
Proof.
  intros Hmax. simpl. unfold upserted.
  rewrite enforce_limit_nonneg by done. simpl.
  split; [done|]. intros k. by rewrite lookup_foldl_delete.
Qed.













(** ** A completed event without a status *)

(** Claim C5 does not hold: the endpoint is called with status 200, then
    completes once more without a status; [lastStatus] is still 200. *)
Lemma null_status_keeps_last_status :
  let acts :=
    [(BeforeRequest (Fixture.request "1" 5 "https://x.com/api/users"), Fixture.clock 10);
     (Completed (Fixture.response "1" [] (Some 200%Z)), Fixture.clock 11);
     (BeforeRequest (Fixture.request "2" 5 "https://x.com/api/users"), Fixture.clock 12);
     (Completed (Fixture.response "2" [] None), Fixture.clock 13)] in
  let data := table_of (run (H:=Fixture.host) acts Fixture.world) 5 in
  (Item.count <$> items data !! "GET https://x.com/api/users") = Some 2 ∧
  (Item.lastSeen <$> items data !! "GET https://x.com/api/users") = Some 13%Z ∧
  (Item.lastStatus <$> items data !! "GET https://x.com/api/users")
  = Some (Some (StatusCode 200)).
Proof. by vm_compute. Qed.

(** In a consistent table within the limit, and with room for one key,
    the key of an upsert has its item afterwards. *)
Lemma upserted_lookup settings now data method endpoint st sz :
  (1 ≤ maxPerTab settings)%Z → consistent data →
  (Z.of_nat (length (order data)) ≤ maxPerTab settings)%Z →
  let key := makeKey method endpoint in
  items (upserted settings now data method endpoint st sz) !! key
  = Some (recorded (default (new_item key method endpoint now) (items data !! key))
            now st sz).
Proof.
  intros Hmax [Hnd Hkeys] Hlen key.
  destruct (upserted_shape settings now data method endpoint st sz) as [_ ->]; [lia|].
  fold key. rewrite decide_False, lookup_insert_eq; [done|].
  destruct (items data !! key) as [it|] eqn:Hit.
  - rewrite drop_ge by lia. apply not_elem_of_nil.
  - destruct (Z.to_nat (maxPerTab settings)) as [|n] eqn:Hn; [lia|]. simpl.
    intros Hin%(subseteq_drop n (order data)).
    apply Hkeys in Hin as [? ?]. congruence.
Qed.

(** C5, amended. A completed event without a status code, for a pending
    request of a tab whose table is consistent and within the limit,
    leaves [lastStatus] and [statusCounts] of the endpoint's item as they
    were: null and empty when the item is new, the earlier values
    otherwise. *)
Theorem null_status_leaves_status_alone details meta e w :
  requestCache w !! Details.requestId details = Some meta →
  Details.statusCode details = None →
  (0 ≤ Meta.tabId meta)%Z → quiet e →
  (1 ≤ maxPerTab (settings_of w))%Z →
  let old := table_of w (Meta.tabId meta) in
  let key := makeKey (Meta.method meta) (Meta.endpoint meta) in
  consistent old →
  (Z.of_nat (length (order old)) ≤ maxPerTab (settings_of w))%Z →
  ∃ it,
    items (table_of (onCompleted details e w).2 (Meta.tabId meta)) !! key = Some it ∧
    Item.lastStatus it = items old !! key ≫= Item.lastStatus ∧
    Item.statusCounts it = default ∅ (Item.statusCounts <$> items old !! key).
Proof.
  intros Hmeta Hnull Htab Hq Hmax old key Hold Hlen.
  unfold onCompleted. run_M. rewrite Hmeta, Hnull. simpl.
  rewrite upsertApiCall_quiet by done. simpl.
  unfold table_of at 1. simpl. rewrite lookup_insert_eq. simpl.
  fold old. unfold key. rewrite upserted_lookup by done. fold key.
  eexists. split; [done|].
  rewrite recorded_lastStatus, recorded_statusCounts_None.
  by destruct (items old !! key).
Qed.

Lemma table_of_consistent w tabId : store_consistent w → consistent (table_of w tabId).
Proof.
  intros Hw. unfold table_of.
  destruct (session w !! tabKey tabId) as [data|] eqn:Hdata; simpl;
    [by eapply Hw|apply empty_tab_consistent].
Qed.

Lemma null_status_leaves_status_alone_witness :
  let w :=
    run (H:=Fixture.host)
      [(Upsert 5 "GET" "https://x.com/api/users" (Some (StatusCode 200)) None,
        Fixture.clock 11);
       (BeforeRequest (Fixture.request "2" 5 "https://x.com/api/users"),
        Fixture.clock 12)]
      Fixture.world in
  let meta := {| Meta.tabId := 5; Meta.method := "GET";
                 Meta.endpoint := "https://x.com/api/users";
                 Meta.sizeBytes := None |} in
  let d := Fixture.response "2" [] None in
  let key := makeKey (Meta.method meta) (Meta.endpoint meta) in
  (items (table_of w 5) !! key ≫= Item.lastStatus) = Some (StatusCode 200) ∧
  ∃ it,
    items (table_of (onCompleted d (Fixture.clock 13) w).2 (Meta.tabId meta)) !! key
    = Some it ∧
    Item.lastStatus it = items (table_of w (Meta.tabId meta)) !! key ≫= Item.lastStatus ∧
    Item.statusCounts it
    = default ∅ (Item.statusCounts <$> items (table_of w (Meta.tabId meta)) !! key).
Proof.
  intros w meta d key. split; [by vm_compute|].
  apply (null_status_leaves_status_alone d meta (Fixture.clock 13) w).
  - by vm_compute.
  - reflexivity.
  - by vm_compute.
  - intros a. reflexivity.
  - by vm_compute.
  - apply table_of_consistent, run_consistent.
    intros k data. simpl. by rewrite lookup_empty.
  - by vm_compute.
Defined.

(** ** The length header *)

Example parseInt10_plain : JS.parseInt10 "120" = Some 120%Z.
Proof. reflexivity. Qed.

Example parseInt10_negative : JS.parseInt10 "-5" = Some (-5)%Z.
Proof. reflexivity. Qed.

Example parseInt10_prefix : JS.parseInt10 "  +12 bytes" = Some 12%Z.
Proof. reflexivity. Qed.

Example parseInt10_text : JS.parseInt10 "chunked" = None.
Proof. reflexivity. Qed.

Example to_double_rounds : JS.to_double 9007199254740993 = Some 9007199254740992%Z.
Proof. reflexivity. Qed.

Lemma find_first {A} (f : A → bool) (l : list A) (x : A) :
  find f l = Some x ↔
  ∃ before after, l = before ++ x :: after ∧ f x = true ∧
                  ∀ y, y ∈ before → f y = false.
Proof.
  induction l as [|a l IH]; simpl.
  - split; [done|]. intros (before & after & Hl & _). by destruct before.
  - destruct (f a) eqn:Ha.
    + split.
      * intros [= ->]. exists [], l. split; [done|]. split; [done|].
        by intros y ?%elem_of_nil.
      * intros ([|b before] & after & Hl & Hx & Hbefore); simplify_eq/=; [done|].
        rewrite Hbefore in Ha; [done|]. by left.
    + rewrite IH. split.
      * intros (before & after & -> & Hx & Hbefore).
        exists (a :: before), after. split; [done|]. split; [done|].
        intros y [->|Hy]%elem_of_cons; auto.
      * intros ([|b before] & after & Hl & Hx & Hbefore); simplify_eq/=; [congruence|].
        exists before, after. split; [done|]. split; [done|].
        intros y Hy. apply Hbefore. by right.
Qed.

Lemma getHeaderValue_Some hs target v :
  getHeaderValue (Some hs) target = Some v ↔
  ∃ h, first_named target hs h ∧ value h = Some v.
Proof.
  unfold getHeaderValue, first_named.
  set (f := λ x : HttpHeader, bool_decide _).
  assert (∀ x, f x = true ↔ JS.toLowerCase (name x) = JS.toLowerCase target) as Hf.
  { intros x. unfold f. by rewrite or_else_string, bool_decide_eq_true. }
  assert (∀ x, f x = false ↔ JS.toLowerCase (name x) ≠ JS.toLowerCase target) as Hnf.
  { intros x. unfold f. by rewrite or_else_string, bool_decide_eq_false. }
  destruct (find f hs) as [h|] eqn:Hfind; simpl.
  - apply find_first in Hfind as (before & after & Hl & Hh & Hbefore).
    split.
    + intros Hv. exists h. split; [|done]. exists before, after.
      split; [done|]. split; [by apply Hf|]. intros y Hy. by apply Hnf, Hbefore.
    + intros (h' & (before' & after' & Hl' & Hh' & Hbefore') & Hv).
      assert (find f hs = Some h') as Hfind'.
      { apply find_first. exists before', after'. split; [done|].
        split; [by apply Hf|]. intros y Hy. by apply Hnf, Hbefore'. }
      assert (find f hs = Some h) as Hfind.
      { apply find_first. by exists before, after. }
      congruence.
  - split; [done|].
    intros (h' & (before' & after' & Hl' & Hh' & Hbefore') & Hv).
    assert (find f hs = Some h') as Hfind'; [|congruence].
    apply find_first. exists before', after'. split; [done|].
    split; [by apply Hf|]. intros y Hy. by apply Hnf, Hbefore'.
Qed.

Lemma toIntOrNull_length_header details n :
  toIntOrNull (getHeaderValue (Details.responseHeaders details) "content-length") = Some n
  ↔ length_header details n.
Proof.
  unfold length_header, toIntOrNull.
  destruct (Details.responseHeaders details) as [hs|].
  - destruct (getHeaderValue (Some hs) "content-length") as [v|] eqn:Hv; simpl.
    + apply getHeaderValue_Some in Hv as (h & Hh & Hval).
      split.
      * destruct (JS.parseInt10 v) as [z|] eqn:Hz; simpl; [|done].
        intros Hn. by exists hs, h, v, z.
      * intros (hs' & h' & v' & z & [= <-] & Hh' & Hval' & Hz & Hn).
        assert (getHeaderValue (Some hs) "content-length" = Some v') as Hv'
          by (apply getHeaderValue_Some; eauto).
        assert (getHeaderValue (Some hs) "content-length" = Some v) as Hv
          by (apply getHeaderValue_Some; eauto).
        assert (v' = v) as -> by congruence.
        by rewrite Hz.
    + split; [done|].
      intros (hs' & h' & v' & z & [= <-] & Hh' & Hval' & _).
      assert (getHeaderValue (Some hs) "content-length" = Some v') as Hv'
        by (apply getHeaderValue_Some; eauto).
      congruence.
  - simpl. split; [done|]. by intros (? & ? & ? & ? & ? & _).
Qed.

(** Claim C6 does not hold: the length header of the pending request 1
    reads [-5], which is no length, and [sizeBytes] becomes -5. *)
Lemma negative_length_is_recorded :
  let acts :=
    [(BeforeRequest (Fixture.request "1" 5 "https://x.com/api/users"), Fixture.clock 10);
     (HeadersReceived
        (Fixture.response "1" [{| name := "Content-Length"; value := Some "-5" |}] None),
      Fixture.clock 11)] in
  (Meta.sizeBytes <$> requestCache (run (H:=Fixture.host) acts Fixture.world) !! "1")
  = Some (Some (-5)%Z).
Proof. by vm_compute. Qed.

(** C6, amended. A headers event for a pending request sets [sizeBytes]
    to [n] when the first header named content-length, in any case of the
    letters, has a value that [parseInt] reads in base 10 as an integer, of
    either sign, whose double [n] is finite; when there is no such header
    or value, [sizeBytes] stays as it is. Nothing else of the entry
    changes. *)
Theorem headers_record_the_length details meta e w :
  requestCache w !! Details.requestId details = Some meta →
  ∃ meta',
    onHeadersReceived details e w
    = (Ok tt, with_cache (insert (Details.requestId details) meta') w) ∧
    Meta.tabId meta' = Meta.tabId meta ∧
    Meta.method meta' = Meta.method meta ∧
    Meta.endpoint meta' = Meta.endpoint meta ∧
    (∀ n, length_header details n → Meta.sizeBytes meta' = Some n) ∧
    ((¬ ∃ n, length_header details n) → Meta.sizeBytes meta' = Meta.sizeBytes meta).
Proof.
  intros Hmeta. unfold onHeadersReceived. run_M. rewrite Hmeta.
  pose proof (toIntOrNull_length_header details) as Hsize.
  destruct (toIntOrNull _) as [n|]; eexists; (split; [reflexivity|]); simpl.
  - split; [done|]. split; [done|]. split; [done|]. split.
    + intros n' Hn'. apply Hsize in Hn'. congruence.
    + intros Hno. destruct Hno. exists n. by apply Hsize.
  - split; [done|]. split; [done|]. split; [done|]. split; [|done].
    intros n' Hn'. by apply Hsize in Hn'.
Qed.

Lemma headers_record_the_length_witness :
  let meta := {| Meta.tabId := 5; Meta.method := "GET";
                 Meta.endpoint := "https://x.com/api/users";
                 Meta.sizeBytes := None |} in
  let w := with_cache (insert "1" meta) Fixture.world in
  let d := Fixture.response "1" [{| name := "Content-Length"; value := Some "120" |}]
             None in
  ∃ meta',
    onHeadersReceived d (Fixture.clock 11) w
    = (Ok tt, with_cache (insert (Details.requestId d) meta') w) ∧
    Meta.tabId meta' = Meta.tabId meta ∧
    Meta.method meta' = Meta.method meta ∧
    Meta.endpoint meta' = Meta.endpoint meta ∧
    (∀ n, length_header d n → Meta.sizeBytes meta' = Some n) ∧
    ((¬ ∃ n, length_header d n) → Meta.sizeBytes meta' = Meta.sizeBytes meta).
Proof.
  intros meta w d.
  apply (headers_record_the_length d meta (Fixture.clock 11) w).
  by vm_compute.
Defined.

(** ** A start event with a negative tab id *)

(** Claim C7 does not hold: a fetch of an API endpoint with tab id -1 is
    put in the correlator, tab id and all. *)
Lemma negative_tab_request_is_pending :
  let d := Fixture.request "9" (-1) "https://x.com/api/users" in
  let out := onBeforeRequest (H:=Fixture.host) d (Fixture.clock 10) Fixture.world in
  (Details.tabId d < 0)%Z ∧
  out.1 = Ok tt ∧
  requestCache out.2 !! "9"
  = Some {| Meta.tabId := -1; Meta.method := "GET";
            Meta.endpoint := "https://x.com/api/users"; Meta.sizeBytes := None |}.
Proof. by vm_compute. Qed.

Section StartEvent.
Context `{Host}.

(** C7, amended. The start listener does not look at the tab id. For a
    start event with a negative tab id, as for any other, a pending entry
    with that tab id is made exactly when the type is captured and the
    normalised URL is classified as API; no table is touched. The tab id is
    turned down later: at the completed event the entry leaves the
    correlator and the session storage is still as it was before the start
    event. *)
Theorem negative_tab_start_is_tracked details e w :
  (Details.tabId details < 0)%Z →
  rejects e LocalGet = false →
  let settings := settings_of w in
  let endpoint := normalizeUrl (Details.url details) (includeQueryString settings) in
  let meta := {| Meta.tabId := Details.tabId details;
                 Meta.method := JS.or_else (Details.method details) "GET";
                 Meta.endpoint := endpoint;
                 Meta.sizeBytes := None |} in
  let tracks := bool_decide (Details.type details ∈ captureTypes settings)
                && isApiUrl (Some endpoint) settings in
  let w1 := (onBeforeRequest details e w).2 in
  (onBeforeRequest details e w).1 = Ok tt ∧
  requestCache w1
  = (if tracks then <[Details.requestId details := meta]> (requestCache w)
     else requestCache w) ∧
  session w1 = session w ∧
  (tracks = true →
   ∀ d2 e2, Details.requestId d2 = Details.requestId details →
     let w2 := (onCompleted d2 e2 w1).2 in
     requestCache w2 !! Details.requestId details = None ∧
     session w2 = session w).
Proof.
  intros Hneg Hq settings endpoint meta tracks w1.
  assert (onBeforeRequest details e w
          = (Ok tt, with_cache (λ c, if tracks then <[Details.requestId details := meta]> c
                                     else c) (with_call LocalGet w))) as Hstart.
  { unfold onBeforeRequest. run_M. rewrite Hq. simpl.
    unfold tracks, meta, endpoint, settings, settings_of.
    destruct (bool_decide _); simpl; [|done].
    by destruct (isApiUrl _ _). }
  unfold w1. rewrite Hstart. simpl.
  split; [done|]. split; [done|]. split; [done|].
  intros Htracks d2 e2 Hid. rewrite Htracks.
  destruct (terminal_negative d2 meta e2
              (with_cache (λ c, <[Details.requestId details := meta]> c)
                 (with_call LocalGet w))) as [-> _]; simpl.
  - rewrite Hid. apply lookup_insert_eq.
  - done.
  - rewrite Hid. split; [apply lookup_delete_eq|done].
Qed.

End StartEvent.

Lemma negative_tab_start_is_tracked_witness :
  let d := Fixture.request "9" (-1) "https://x.com/api/users" in
  let w1 := (onBeforeRequest (H:=Fixture.host) d (Fixture.clock 10) Fixture.world).2 in
  is_Some (requestCache w1 !! "9") ∧
  session w1 = session Fixture.world ∧
  let w2 := (onCompleted (Fixture.response "9" [] (Some 200%Z)) (Fixture.clock 11) w1).2 in
  requestCache w2 !! "9" = None ∧ session w2 = session Fixture.world.
Proof.
  intros d w1.
  destruct (@negative_tab_start_is_tracked Fixture.host d (Fixture.clock 10) Fixture.world)
    as (_ & Hcache & Hsession & Hend).
  - by vm_compute.
  - reflexivity.
  - split; [|split].
    + unfold w1. rewrite Hcache. vm_compute. by eexists.
    + exact Hsession.
    + apply (Hend eq_refl (Fixture.response "9" [] (Some 200%Z)) (Fixture.clock 11)).
      reflexivity.
Defined.

(** * Further properties of the worker *)

(** ** Events of requests that are not pending *)

(** X1. Headers, completed and error events of requests the correlator
    does not hold are ignored: a run made of such events only leaves the
    world as it was, correlator, tables and the log of storage calls. *)
Theorem events_without_start_do_nothing `{Host} (acts : list (Action * Env)) (w : World) :
  (∀ a e, (a, e) ∈ acts →
     ∃ d, follow_up a = Some d ∧ requestCache w !! Details.requestId d = None) →
  run acts w = w.
Proof.
  induction acts as [|[a e] acts IH]; intros Hacts; [done|]. simpl.
  destruct (Hacts a e) as (d & Hd & Hnone); [by left|].
  assert (perform a e w = (Ok tt, w)) as ->.
  { destruct a; simplify_eq/=;
      unfold onHeadersReceived, onCompleted, onErrorOccurred; run_M;
      by rewrite Hnone. }
  simpl. apply IH. intros a' e' Hin. apply (Hacts a' e'). by right.
Qed.

Lemma events_without_start_do_nothing_witness :
  run (H:=Fixture.host)
    [(HeadersReceived
        (Fixture.response "4" [{| name := "content-length"; value := Some "9" |}] None),
      Fixture.clock 1);
     (Completed (Fixture.response "4" [] (Some 200%Z)), Fixture.full 2);
     (ErrorOccurred (Fixture.response "5" [] None), Fixture.clock 3)]
    Fixture.world
  = Fixture.world.
Proof.
  apply (@events_without_start_do_nothing Fixture.host).
  intros a e Hin.
  repeat (apply elem_of_cons in Hin as [[= -> ->]|Hin]);
    try (by apply elem_of_nil in Hin); by eexists.
Defined.

(** ** An upsert that throws *)

(** X2. An upsert that throws has written nothing: the session storage,
    the correlator and the settings are as before. The same holds for the
    completed and error listeners, which throw only through their
    upsert. *)
Theorem failed_upsert_writes_nothing tabId method endpoint st sz details e w :
  let untouched (out : Res unit * World) :=
    out.1 = Throw →
    session out.2 = session w ∧
    requestCache out.2 = requestCache w ∧
    local_settings out.2 = local_settings w in
  untouched (upsertApiCall tabId method endpoint st sz e w) ∧
  untouched (onCompleted details e w) ∧
  untouched (onErrorOccurred details e w).
Proof.
  assert (∀ tabId method endpoint st sz,
    (upsertApiCall tabId method endpoint st sz e w).1 = Throw →
    session (upsertApiCall tabId method endpoint st sz e w).2 = session w ∧
    requestCache (upsertApiCall tabId method endpoint st sz e w).2 = requestCache w ∧
    local_settings (upsertApiCall tabId method endpoint st sz e w).2 = local_settings w)
    as Hup.
  { intros t m ep s z.
    destruct (upsertApiCall_cases t m ep s z e w) as (r & w1 & -> & Hc & Hl & Hs).
    simpl. intros ->. by destruct Hs as [->|(_ & ? & _)]. }
  simpl. split; [apply Hup|].
  split; unfold onCompleted, onErrorOccurred; run_M;
    (destruct (requestCache w !! Details.requestId details) as [meta|]; [|done]);
    match goal with
    | |- context [upsertApiCall ?t ?m ?ep ?s ?z e w] =>
        pose proof (Hup t m ep s z) as Hthis;
        destruct (upsertApiCall t m ep s z e w) as [[[]|] w1]; simpl in *; [done|auto]
    end.
Qed.

Lemma failed_upsert_writes_nothing_witness :
  let out := upsertApiCall 5 "GET" "https://x.com/api/users" (Some (StatusCode 200))
               None (Fixture.full 12) Fixture.world in
  out.1 = Throw ∧ session out.2 = session Fixture.world.
Proof.
  intros out. split; [reflexivity|].
  pose proof (failed_upsert_writes_nothing 5 "GET" "https://x.com/api/users"
                (Some (StatusCode 200)) None (Fixture.response "7" [] None)
                (Fixture.full 12) Fixture.world) as Hall.
  cbv zeta beta in Hall. destruct Hall as [Hup _].
  by destruct (Hup eq_refl) as [Hsession _].
Defined.

(** ** One tab at a time *)

Lemma tabKey_inj (a b : Z) : tabKey a = tabKey b → a = b.
Proof.
  unfold tabKey. intros Heq.
  by apply (inj pretty), (inj (String.app "tab:")).
Qed.

(** X3. An upsert for one tab leaves the table of every other tab as it
    was, whatever rejects; so do the completed and error events of a
    request pending for that tab. *)
Theorem upsert_leaves_other_tabs (tabId other : Z) :
  other ≠ tabId →
  (∀ method endpoint st sz e w,
     table_of (upsertApiCall tabId method endpoint st sz e w).2 other
     = table_of w other) ∧
  (∀ details meta e w,
     requestCache w !! Details.requestId details = Some meta →
     Meta.tabId meta = tabId →
     table_of (onCompleted details e w).2 other = table_of w other ∧
     table_of (onErrorOccurred details e w).2 other = table_of w other).
Proof.
  intros Hother.
  assert (∀ method endpoint st sz e w,
            table_of (upsertApiCall tabId method endpoint st sz e w).2 other
            = table_of w other) as Hup.
  { intros method endpoint st sz e w. unfold table_of.
    destruct (upsertApiCall_cases tabId method endpoint st sz e w)
      as (r & w1 & -> & _ & _ & Hs).
    simpl. destruct Hs as [->|(_ & _ & ->)]; [done|].
    rewrite lookup_insert_ne; [done|]. intros Heq%tabKey_inj. by destruct Hother. }
  split; [exact Hup|].
  intros details meta e w Hmeta <-.
  unfold onCompleted, onErrorOccurred. run_M. rewrite Hmeta.
  split.
  - pose proof (Hup (Meta.method meta) (Meta.endpoint meta)
                  (StatusCode <$> Details.statusCode details) (Meta.sizeBytes meta) e w)
      as Hthis.
    by destruct (upsertApiCall _ _ _ _ _ e w) as [[[]|] w1].
  - pose proof (Hup (Meta.method meta) (Meta.endpoint meta)
                  (Some (StatusText "ERR")) (Meta.sizeBytes meta) e w) as Hthis.
    by destruct (upsertApiCall _ _ _ _ _ e w) as [[[]|] w1].
Qed.

Lemma upsert_leaves_other_tabs_witness :
  let w := (upsertApiCall 5 "GET" "https://x.com/api/users" (Some (StatusCode 200))
              None (Fixture.clock 1) Fixture.world).2 in
  table_of (upsertApiCall 6 "GET" "https://x.com/api/orders" None None
              (Fixture.clock 2) w).2 5
  = table_of w 5.
Proof.
  intros w.
  refine (proj1 (upsert_leaves_other_tabs 6 5 _) "GET" "https://x.com/api/orders"
            None None (Fixture.clock 2) w).
  lia.
Defined.

(** ** The limit, on every upsert *)

Lemma table_after_upsert tabId method endpoint st sz e w :
  (0 ≤ tabId)%Z → quiet e →
  table_of (upsertApiCall tabId method endpoint st sz e w).2 tabId
  = upserted (settings_of w) (now e) (table_of w tabId) method endpoint st sz.
Proof.
  intros Htab Hq. rewrite upsertApiCall_quiet by done.
  unfold table_of at 1. simpl. by rewrite lookup_insert_eq.
Qed.

(** X4. With a limit that is not negative, the table an upsert writes
    never has more than [maxPerTab] keys in [order], whatever the table
    held before (the limit may have been lowered since); if the table was
    consistent it has no more than [maxPerTab] items either. *)
Theorem upsert_respects_limit tabId method endpoint st sz e w :
  (0 ≤ tabId)%Z → quiet e → (0 ≤ maxPerTab (settings_of w))%Z →
  let data := table_of (upsertApiCall tabId method endpoint st sz e w).2 tabId in
  length (order data) ≤ Z.to_nat (maxPerTab (settings_of w)) ∧
  (consistent (table_of w tabId) →
   size (items data) ≤ Z.to_nat (maxPerTab (settings_of w))).
Proof.
  intros Htab Hq Hmax data. unfold data. rewrite table_after_upsert by done.
  destruct (upserted_shape (settings_of w) (now e) (table_of w tabId)
              method endpoint st sz Hmax) as [Ho _].
  assert (length (order (upserted (settings_of w) (now e) (table_of w tabId)
                           method endpoint st sz))
          ≤ Z.to_nat (maxPerTab (settings_of w))) as Hlen.
  { rewrite Ho, length_take. lia. }
  split; [done|]. intros Hold.
  destruct (consistent_sizes _ (upserted_consistent (settings_of w) (now e)
              (table_of w tabId) method endpoint st sz Hold)) as [_ <-].
  done.
Qed.

Lemma upsert_respects_limit_witness :
  let w := upserts 5 [Fixture.call "GET" "a" None 1; Fixture.call "GET" "b" None 2]
             Fixture.world in
  let data := table_of (upsertApiCall 5 "GET" "c" None None (Fixture.clock 3) w).2 5 in
  length (order data) ≤ 2.
Proof.
  intros w data.
  refine (proj1 (upsert_respects_limit 5 "GET" "c" None None (Fixture.clock 3) w _ _ _)).
  - lia.
  - intros a. reflexivity.
  - by vm_compute.
Defined.

(** X5. An upsert of a key the table already has, at position [i] of a
    duplicate-free [order], does not move the key: [order] afterwards is
    the old [order], cut at the limit, so the key is still at position [i]
    when that is below the limit. In that case the item is kept, with the
    call recorded; otherwise the upsert evicts the very item it has just
    updated. *)
Theorem update_survives_below_limit tabId method endpoint st sz e w (i : nat) it :
  (0 ≤ tabId)%Z → quiet e → (0 ≤ maxPerTab (settings_of w))%Z →
  let old := table_of w tabId in
  let key := makeKey method endpoint in
  let limit := Z.to_nat (maxPerTab (settings_of w)) in
  NoDup (order old) →
  order old !! i = Some key →
  items old !! key = Some it →
  let data := table_of (upsertApiCall tabId method endpoint st sz e w).2 tabId in
  order data = take limit (order old) ∧
  order data !! i = (if decide (i < limit) then Some key else None) ∧
  items data !! key
  = (if decide (i < limit) then Some (recorded it (now e) st sz) else None).
Proof.
  intros Htab Hq Hmax old key limit Hnd Hi Hit data.
  unfold data. rewrite table_after_upsert by done.
  destruct (upserted_shape (settings_of w) (now e) old method endpoint st sz Hmax)
    as [Horder Hitems].
  fold old key in Horder. rewrite Hit in Horder. fold limit in Horder.
  fold old. split; [done|]. split.
  { rewrite Horder. destruct (decide (i < limit)).
    - by rewrite lookup_take_lt.
    - apply lookup_take_ge. lia. }
  rewrite Hitems. fold key. rewrite Hit. fold limit.
  change (default (new_item key method endpoint (now e)) (Some it)) with it.
  destruct (decide (i < limit)) as [Hlt|Hge].
  - rewrite decide_False, lookup_insert_eq; [done|].
    intros (j & Hj)%list_elem_of_lookup. rewrite lookup_drop in Hj.
    pose proof (NoDup_lookup _ _ _ _ Hnd Hi Hj). lia.
  - rewrite decide_True; [done|].
    apply list_elem_of_lookup. exists (i - limit).
    rewrite lookup_drop. by replace (limit + (i - limit)) with i by lia.
Qed.

Lemma update_survives_below_limit_witness :
  let w0 := upserts 5 [Fixture.call "GET" "a" None 1; Fixture.call "GET" "b" None 2]
              Fixture.world in
  let w :=
    with_settings
      (Some {| st_captureTypes := None; st_includeQueryString := None;
               st_apiIncludePatterns := None; st_apiExcludePatterns := None;
               st_maxPerTab := Some 1%Z |}) w0 in
  let data := table_of (upsertApiCall 5 "GET" "a" None None (Fixture.clock 3) w).2 5 in
  order data = take 1 (order (table_of w 5)) ∧
  order data !! 1 = None ∧
  items data !! makeKey "GET" "a" = None.
Proof.
  intros w0 w.
  apply (update_survives_below_limit 5 "GET" "a" None None (Fixture.clock 3) w 1
           (recorded (new_item (makeKey "GET" "a") "GET" "a" 1) 1 None None)).
  - lia.
  - intros a. reflexivity.
  - by vm_compute.
  - apply (bool_decide_unpack _). by vm_compute.
  - by vm_compute.
  - by vm_compute.
Defined.

Lemma enforce_limit_negative data (maxPerTab : Z) :
  (maxPerTab < 0)%Z →
  let keep := length (order data) - Z.to_nat (- maxPerTab) in
  enforce_limit data maxPerTab
  = {| items := foldl (λ m rk, delete rk m) (items data) (drop keep (order data));
       order := take keep (order data) |}.
Proof.
  intros Hneg keep. unfold enforce_limit, JS.splice.
  destruct (maxPerTab <? Z.of_nat (length (order data)))%Z eqn:Hlt; [|lia].
  destruct (maxPerTab <? 0)%Z eqn:Hlt0; [|lia].
  by replace (Z.to_nat (Z.max (Z.of_nat (length (order data)) + maxPerTab) 0))
    with keep by (unfold keep; lia).
Qed.

(** X6. With a negative limit [splice] counts from the end: every upsert
    cuts the [-maxPerTab] oldest keys off [order] and deletes their items,
    however short the table is. *)
Theorem negative_limit_evicts_on_every_upsert tabId method endpoint st sz e w :
  (0 ≤ tabId)%Z → quiet e → (maxPerTab (settings_of w) < 0)%Z →
  let old := table_of w tabId in
  let key := makeKey method endpoint in
  let all := match items old !! key with
             | Some _ => order old
             | None => key :: order old
             end in
  let it := recorded (default (new_item key method endpoint (now e)) (items old !! key))
              (now e) st sz in
  let keep := length all - Z.to_nat (- maxPerTab (settings_of w)) in
  let data := table_of (upsertApiCall tabId method endpoint st sz e w).2 tabId in
  order data = take keep all ∧
  ∀ k, items data !! k
       = if decide (k ∈ drop keep all) then None else <[key := it]> (items old) !! k.
Proof.
  intros Htab Hq Hneg old key all it keep data.
  unfold data. rewrite table_after_upsert by done.
  unfold upserted. fold old key all.
  rewrite enforce_limit_negative by done. simpl.
  split; [done|]. intros k. by rewrite lookup_foldl_delete.
Qed.

Lemma negative_limit_evicts_on_every_upsert_witness :
  let w :=
    with_settings
      (Some {| st_captureTypes := None; st_includeQueryString := None;
               st_apiIncludePatterns := None; st_apiExcludePatterns := None;
               st_maxPerTab := Some (-1)%Z |}) Fixture.world in
  table_of (upsertApiCall 5 "GET" "a" None None (Fixture.clock 3) w).2 5 = empty_tab.
Proof.
  intros w.
  destruct (negative_limit_evicts_on_every_upsert 5 "GET" "a" None None
              (Fixture.clock 3) w) as [Ho Hi].
  - lia.
  - intros a. reflexivity.
  - by vm_compute.
  - by vm_compute.
Defined.

(** ** What the calls of one endpoint add up to *)

Lemma replayed_snoc it cs c :
  replayed it (cs ++ [c])
  = recorded (replayed it cs) (now (c_env c)) (c_status c) (c_size c).
Proof. unfold replayed. by rewrite foldl_snoc. Qed.

Lemma recorded_fixed it now st sz :
  Item.key (recorded it now st sz) = Item.key it ∧
  Item.method (recorded it now st sz) = Item.method it ∧
  Item.endpoint (recorded it now st sz) = Item.endpoint it ∧
  Item.firstSeen (recorded it now st sz) = Item.firstSeen it.
Proof. unfold recorded. by destruct st, sz. Qed.

Lemma recorded_sizes it now st sz :
  Item.sizeKnownCount (recorded it now st sz)
  = Item.sizeKnownCount it + match sz with Some _ => 1 | None => 0 end ∧
  Item.sizeSum (recorded it now st sz)
  = (Item.sizeSum it + default 0 sz)%Z ∧
  Item.lastSize (recorded it now st sz)
  = match sz with Some n => Some n | None => Item.lastSize it end.
Proof. unfold recorded. destruct st, sz; simpl; repeat split; lia. Qed.

Lemma recorded_statusCounts it now st sz k :
  Item.statusCounts (recorded it now st sz) !! k
  = match st with
    | Some s =>
        if decide (String_of s = k)
        then Some (default 0 (Item.statusCounts it !! k) + 1)
        else Item.statusCounts it !! k
    | None => Item.statusCounts it !! k
    end.
Proof.
  unfold recorded. destruct st as [s|], sz; simpl; try done;
    (case_decide as Hk; [subst; by rewrite lookup_insert_eq|by rewrite lookup_insert_ne]).
Qed.

Lemma sum_sizes_snoc l x : sum_sizes (l ++ [x]) = (sum_sizes l + x)%Z.
Proof. unfold sum_sizes. induction l as [|y l IH]; simpl; lia. Qed.

Lemma omap_snoc {A B} (f : A → option B) (l : list A) (x : A) :
  omap f (l ++ [x]) = omap f l ++ match f x with Some y => [y] | None => [] end.
Proof. rewrite omap_app. simpl. by destruct (f x). Qed.

Lemma replayed_fixed it cs :
  Item.key (replayed it cs) = Item.key it ∧
  Item.method (replayed it cs) = Item.method it ∧
  Item.endpoint (replayed it cs) = Item.endpoint it ∧
  Item.firstSeen (replayed it cs) = Item.firstSeen it.
Proof.
  induction cs as [|c cs IH] using rev_ind; [done|].
  rewrite replayed_snoc.
  destruct (recorded_fixed (replayed it cs) (now (c_env c)) (c_status c) (c_size c))
    as (-> & -> & -> & ->).
  done.
Qed.

Lemma replayed_sizes it cs :
  Item.sizeKnownCount (replayed it cs)
  = Item.sizeKnownCount it + length (omap c_size cs) ∧
  Item.sizeSum (replayed it cs) = (Item.sizeSum it + sum_sizes (omap c_size cs))%Z ∧
  Item.lastSize (replayed it cs)
  = match last (omap c_size cs) with Some n => Some n | None => Item.lastSize it end.
Proof.
  induction cs as [|c cs (IHn & IHs & IHl)] using rev_ind.
  { simpl. repeat split; lia. }
  rewrite replayed_snoc, omap_snoc.
  destruct (recorded_sizes (replayed it cs) (now (c_env c)) (c_status c) (c_size c))
    as (-> & -> & ->).
  rewrite IHn, IHs, IHl.
  destruct (c_size c) as [n|]; simpl.
  - rewrite length_app, sum_sizes_snoc, last_snoc. simpl. repeat split; lia.
  - rewrite app_nil_r. repeat split; lia.
Qed.

Lemma replayed_lastStatus it cs :
  Item.lastStatus (replayed it cs)
  = match last (omap c_status cs) with Some s => Some s | None => Item.lastStatus it end.
Proof.
  induction cs as [|c cs IH] using rev_ind; [done|].
  rewrite replayed_snoc, omap_snoc, recorded_lastStatus, IH.
  destruct (c_status c) as [s|]; simpl.
  - by rewrite last_snoc.
  - by rewrite app_nil_r.
Qed.

Lemma labelled_snoc k cs c :
  labelled k (cs ++ [c])
  = labelled k cs + (if decide (String_of <$> c_status c = Some k) then 1 else 0).
Proof.
  unfold labelled. rewrite filter_app, length_app. f_equal.
  case_decide; [by rewrite filter_cons_True|by rewrite filter_cons_False].
Qed.

Lemma replayed_statusCounts key method endpoint t cs k :
  Item.statusCounts (replayed (new_item key method endpoint t) cs) !! k
  = if decide (labelled k cs = 0) then None else Some (labelled k cs).
Proof.
  induction cs as [|c cs IH] using rev_ind; [done|].
  rewrite replayed_snoc, recorded_statusCounts, labelled_snoc, IH.
  destruct (c_status c) as [s|]; simpl;
    repeat case_decide; simplify_eq/=; try done; try lia; f_equal; lia.
Qed.

(** The endpoint's item is the fresh item of the first call with every
    call replayed on it. *)
Lemma upserts_replayed tabId method endpoint cs w :
  (0 ≤ tabId)%Z → (1 ≤ maxPerTab (settings_of w))%Z →
  (∀ c, c ∈ cs → c_method c = method ∧ c_endpoint c = endpoint ∧ quiet (c_env c)) →
  items (table_of w tabId) !! makeKey method endpoint = None →
  makeKey method endpoint ∉ order (table_of w tabId) →
  ∀ c_first, head cs = Some c_first →
  ∃ data,
    session (upserts tabId cs w) !! tabKey tabId = Some data ∧
    tracked data (makeKey method endpoint)
      (replayed (new_item (makeKey method endpoint) method endpoint (now (c_env c_first)))
         cs).
Proof.
  intros Htab Hmax Hcs Hnew Hnin.
  induction cs as [|c cs IH] using rev_ind; intros c_first Hfirst; [done|].
  destruct (Hcs c) as (Hm & Hep & Hq); [apply elem_of_app; right; by left|].
  rewrite upserts_snoc_table, Hm, Hep, replayed_snoc by done.
  eexists. split; [done|].
  apply upserted_tracked; [done|].
  destruct cs as [|c0 cs].
  - left. simpl in Hfirst. injection Hfirst as <-. auto.
  - right. simpl in Hfirst. injection Hfirst as <-.
    destruct (IH (λ x Hx, Hcs x (proj2 (elem_of_app _ _ _) (or_introl Hx))) c0 eq_refl)
      as (data & Hdata & Htr).
    unfold table_of. by rewrite Hdata.
Qed.

Lemma sum_sizes_abs (l : list Z) :
  (0 ≤ sum_sizes (Z.abs <$> l) ∧ Z.abs (sum_sizes l) ≤ sum_sizes (Z.abs <$> l))%Z.
Proof.
  unfold sum_sizes. induction l as [|x l IH]; [simpl; lia|].
  rewrite fmap_cons. cbn [foldr]. lia.
Qed.

(** Sizes whose absolute values add up to less than 2^53: the code's
    additions in doubles are all exact. *)
Lemma double_sum_exact (sizes : list Z) :
  (sum_sizes (Z.abs <$> sizes) < 2 ^ 53)%Z →
  double_sum sizes = Some (sum_sizes sizes).
Proof.
  unfold double_sum.
  assert (∀ acc : Z,
            (Z.abs acc + sum_sizes (Z.abs <$> sizes) < 2 ^ 53)%Z →
            foldl (λ acc n, a ← acc; JS.to_double (a + n)) (Some acc) sizes
            = Some (acc + sum_sizes sizes)%Z) as Hgen.
  { induction sizes as [|n sizes IH]; intros acc Hacc.
    - simpl. by rewrite Z.add_0_r.
    - rewrite fmap_cons in Hacc.
      change (sum_sizes (Z.abs n :: (Z.abs <$> sizes)))
        with (Z.abs n + sum_sizes (Z.abs <$> sizes))%Z in Hacc.
      change (sum_sizes (n :: sizes)) with (n + sum_sizes sizes)%Z.
      pose proof (sum_sizes_abs sizes) as [Hpos _].
      cbn [foldl mbind option_bind].
      assert (JS.to_double (acc + n) = Some (acc + n)%Z) as ->.
      { unfold JS.to_double.
        destruct (Z.abs (acc + n) <? 2 ^ 53)%Z eqn:Hlt; [done|].
        apply Z.ltb_ge in Hlt. lia. }
      rewrite IH by lia. f_equal. lia. }
  intros Hsum. by rewrite Hgen.
Qed.

(** X7. After [N] calls for one endpoint, one after the other and under
    the conditions of C1, whose sizes add up, in absolute value, to less
    than 2^53: the item carries the key, method and endpoint of the calls,
    [firstSeen] is the time of the first call, [sizeKnownCount] the number
    of calls that came with a size, [sizeSum] the sum of those sizes, which
    is what the additions in doubles give, and [lastSize] the latest of
    them, null when no call had one. *)
Theorem same_endpoint_sizes (tabId : Z) (method endpoint : string)
    (cs : list Call) (c_first : Call) (w : World) :
  (0 ≤ tabId)%Z → (1 ≤ maxPerTab (settings_of w))%Z →
  (∀ c, c ∈ cs → c_method c = method ∧ c_endpoint c = endpoint ∧ quiet (c_env c)) →
  (sum_sizes (Z.abs <$> omap c_size cs) < 2 ^ 53)%Z →
  items (table_of w tabId) !! makeKey method endpoint = None →
  makeKey method endpoint ∉ order (table_of w tabId) →
  head cs = Some c_first →
  ∃ data it,
    session (upserts tabId cs w) !! tabKey tabId = Some data ∧
    items data !! makeKey method endpoint = Some it ∧
    Item.key it = makeKey method endpoint ∧
    Item.method it = method ∧ Item.endpoint it = endpoint ∧
    Item.firstSeen it = now (c_env c_first) ∧
    Item.sizeKnownCount it = length (omap c_size cs) ∧
    Item.sizeSum it = sum_sizes (omap c_size cs) ∧
    double_sum (omap c_size cs) = Some (Item.sizeSum it) ∧
    Item.lastSize it = last (omap c_size cs).
Proof.
  intros Htab Hmax Hcs Hexact Hnew Hnin Hfirst.
  destruct (upserts_replayed tabId method endpoint cs w Htab Hmax Hcs Hnew Hnin
              c_first Hfirst) as (data & Hdata & [Hit _]).
  eexists _, _. split; [done|]. split; [done|].
  destruct (replayed_fixed
              (new_item (makeKey method endpoint) method endpoint (now (c_env c_first))) cs)
    as (-> & -> & -> & ->).
  destruct (replayed_sizes
              (new_item (makeKey method endpoint) method endpoint (now (c_env c_first))) cs)
    as (-> & -> & ->).
  simpl. rewrite Z.add_0_l, double_sum_exact by done.
  repeat split; try done; try lia.
  by destruct (last (omap c_size cs)).
Qed.

(** X8. After [N] calls for one endpoint, one after the other and under
    the conditions of C1, with statuses as the listeners pass them, a
    number or ERR: [lastStatus] is the status of the latest call that came
    with one, and [statusCounts] has under each label the number of calls
    whose status reads as that label, and no entry of its own for a label
    no call had. *)
Theorem same_endpoint_statuses (tabId : Z) (method endpoint : string)
    (cs : list Call) (c_first : Call) (w : World) :
  (0 ≤ tabId)%Z → (1 ≤ maxPerTab (settings_of w))%Z →
  (∀ c, c ∈ cs → c_method c = method ∧ c_endpoint c = endpoint ∧ quiet (c_env c)) →
  (∀ c st, c ∈ cs → c_status c = Some st → listener_status st) →
  items (table_of w tabId) !! makeKey method endpoint = None →
  makeKey method endpoint ∉ order (table_of w tabId) →
  head cs = Some c_first →
  ∃ data it,
    session (upserts tabId cs w) !! tabKey tabId = Some data ∧
    items data !! makeKey method endpoint = Some it ∧
    Item.lastStatus it = last (omap c_status cs) ∧
    ∀ k, Item.statusCounts it !! k
         = if decide (labelled k cs = 0) then None else Some (labelled k cs).
Proof.
  intros Htab Hmax Hcs _ Hnew Hnin Hfirst.
  destruct (upserts_replayed tabId method endpoint cs w Htab Hmax Hcs Hnew Hnin
              c_first Hfirst) as (data & Hdata & [Hit _]).
  eexists _, _. split; [done|]. split; [done|]. split.
  - rewrite replayed_lastStatus. by destruct (last (omap c_status cs)).
  - intros k. apply replayed_statusCounts.
Qed.

Lemma same_endpoint_sizes_witness :
  let call st sz t :=
    {| c_method := "GET"; c_endpoint := "a"; c_status := st; c_size := sz;
       c_env := Fixture.clock t |} in
  let cs := [call (Some (StatusCode 200)) (Some 100%Z) 1%Z;
             call None None 2%Z;
             call (Some (StatusText "ERR")) (Some 20%Z) 3%Z] in
  ∃ data it,
    session (upserts 5 cs Fixture.world) !! tabKey 5 = Some data ∧
    items data !! makeKey "GET" "a" = Some it ∧
    Item.key it = makeKey "GET" "a" ∧
    Item.method it = "GET" ∧ Item.endpoint it = "a" ∧
    Item.firstSeen it = 1%Z ∧
    Item.sizeKnownCount it = 2 ∧
    Item.sizeSum it = 120%Z ∧
    double_sum (omap c_size cs) = Some (Item.sizeSum it) ∧
    Item.lastSize it = Some 20%Z.
Proof.
  intros call cs.
  apply (same_endpoint_sizes 5 "GET" "a" cs (call (Some (StatusCode 200)) (Some 100%Z) 1%Z)
           Fixture.world).
  - lia.
  - by vm_compute.
  - intros c Hc. unfold cs in Hc.
    repeat (apply elem_of_cons in Hc as [->|Hc]); try by apply elem_of_nil in Hc.
    all: by repeat split.
  - by vm_compute.
  - reflexivity.
  - apply not_elem_of_nil.
  - reflexivity.
Defined.

Lemma same_endpoint_statuses_witness :
  let call st t :=
    {| c_method := "GET"; c_endpoint := "a"; c_status := st; c_size := None;
       c_env := Fixture.clock t |} in
  let cs := [call (Some (StatusCode 200)) 1%Z; call (Some (StatusCode 404)) 2%Z;
             call (Some (StatusCode 200)) 3%Z; call None 4%Z] in
  ∃ data it,
    session (upserts 5 cs Fixture.world) !! tabKey 5 = Some data ∧
    items data !! makeKey "GET" "a" = Some it ∧
    Item.lastStatus it = last (omap c_status cs) ∧
    ∀ k, Item.statusCounts it !! k
         = if decide (labelled k cs = 0) then None else Some (labelled k cs).
Proof.
  intros call cs.
  apply (same_endpoint_statuses 5 "GET" "a" cs (call (Some (StatusCode 200)) 1%Z)
           Fixture.world).
  - lia.
  - by vm_compute.
  - intros c Hc. unfold cs in Hc.
    repeat (apply elem_of_cons in Hc as [->|Hc]); try by apply elem_of_nil in Hc.
    all: by repeat split.
  - intros c st Hc. unfold cs in Hc.
    repeat (apply elem_of_cons in Hc as [->|Hc]); try by apply elem_of_nil in Hc.
    all: intros [= <-]; by vm_compute.
  - reflexivity.
  - apply not_elem_of_nil.
  - reflexivity.
Defined.

(** ** Every stored item is well formed *)

Lemma recorded_ok k it now st sz :
  Item.key it = k → k = makeKey (Item.method it) (Item.endpoint it) →
  sum_values (Item.statusCounts it) ≤ Item.count it →
  Item.sizeKnownCount it ≤ Item.count it →
  (Item.lastSize it = None ↔ Item.sizeKnownCount it = 0) →
  (Item.lastStatus it = None ↔ Item.statusCounts it = ∅) →
  (∀ s, Item.lastStatus it = Some s → is_Some (Item.statusCounts it !! String_of s)) →
  item_ok k (recorded it now st sz).
Proof.
  intros Hkey Hmk Hsum Hsize Hlast Hstatus Hin. unfold item_ok.
  destruct (recorded_fixed it now st sz) as (-> & -> & -> & _).
  destruct (recorded_sizes it now st sz) as (-> & _ & ->).
  rewrite recorded_count, recorded_sum, recorded_lastStatus.
  split; [done|]. split; [done|]. split; [lia|].
  split; [destruct st; lia|]. split; [destruct sz; lia|].
  split; [destruct sz; [split; [done|lia]|by rewrite Nat.add_0_r]|].
  split.
  - destruct st as [s|].
    + split; [done|]. unfold recorded. destruct sz; simpl; intros Hempty;
        by apply insert_non_empty in Hempty.
    + by rewrite recorded_statusCounts_None.
  - intros s' Hs'. rewrite recorded_statusCounts.
    destruct st as [s|].
    + injection Hs' as ->. rewrite decide_True by done. eauto.
    + by apply Hin.
Qed.

Lemma upserted_items_ok settings now data method endpoint st sz :
  items_ok data → items_ok (upserted settings now data method endpoint st sz).
Proof.
  intros Hdata k it. unfold upserted.
  match goal with
  | |- context [enforce_limit ?d ?m] => destruct (enforce_limit_cut d m) as [n ->]
  end.
  simpl. rewrite lookup_foldl_delete. case_decide; [done|].
  set (key := makeKey method endpoint).
  destruct (decide (key = k)) as [<-|Hne].
  - rewrite lookup_insert_eq. intros [= <-].
    fold (recorded (default (new_item key method endpoint now) (items data !! key))
            now st sz).
    destruct (items data !! key) as [it0|] eqn:Hit0; simpl.
    + destruct (Hdata key it0 Hit0) as (? & ? & ? & ? & ? & ? & ? & ?).
      by apply recorded_ok.
    + by apply recorded_ok.
  - rewrite lookup_insert_ne by done. apply Hdata.
Qed.

Lemma perform_items_ok `{Host} a e w :
  store_items_ok w → store_items_ok (perform a e w).2.
Proof.
  intros Hw k data.
  destruct (perform_session a e w)
    as [->|[[k' ->]|[[k' ->]|(tabId & s & n & m & ep & st & sz & ->)]]].
  - apply Hw.
  - intros [_ ?]%lookup_delete_Some. by eapply Hw.
  - intros [[_ <-]|[_ ?]]%lookup_insert_Some; [|by eapply Hw].
    intros k0 it. simpl. by rewrite lookup_empty.
  - intros [[_ <-]|[_ ?]]%lookup_insert_Some; [|by eapply Hw].
    apply upserted_items_ok. unfold table_of.
    destruct (session w !! tabKey tabId) as [d0|] eqn:Hd0; simpl; [by eapply Hw|].
    intros k0 it. simpl. by rewrite lookup_empty.
Qed.

Lemma run_items_ok `{Host} acts w :
  store_items_ok w → store_items_ok (run acts w).
Proof.
  revert w. induction acts as [|[a e] acts IH]; intros w Hw; simpl; [done|].
  by apply IH, perform_items_ok.
Qed.

(** X9. Start from a session storage without tables and let anything
    happen, where a direct call of [upsertApiCall] passes a status as the
    listeners do, a number or ERR. Every stored item then sits under its
    own [key], which is its method, a space and its endpoint; its count is
    1 at least; the values of [statusCounts] add up to its count at most,
    and so does [sizeKnownCount]; [lastSize] is null exactly when no size
    was counted; [lastStatus] is null exactly when [statusCounts] is empty,
    and otherwise names one of its labels. *)
Theorem stored_items_are_well_formed `{Host} (acts : list (Action * Env)) (w : World)
    (tk k : string) (data : TabData) (it : Item.t) :
  session w = ∅ →
  (∀ tabId method endpoint st sz e,
     (Upsert tabId method endpoint (Some st) sz, e) ∈ acts → listener_status st) →
  session (run acts w) !! tk = Some data →
  items data !! k = Some it →
  item_ok k it.
Proof.
  intros Hw _ Hdata Hit.
  eapply (run_items_ok acts w); [|done..].
  intros k' d'. by rewrite Hw, lookup_empty.
Qed.

Lemma stored_items_are_well_formed_witness :
  let acts :=
    [(BeforeRequest (Fixture.request "1" 5 "https://x.com/api/users?x=1"), Fixture.clock 10);
     (Completed (Fixture.response "1" [] (Some 200%Z)), Fixture.clock 12);
     (Upsert 5 "POST" "https://x.com/api/orders" (Some (StatusText "ERR")) (Some (-5)%Z),
      Fixture.clock 13)] in
  ∃ data it,
    session (run (H:=Fixture.host) acts Fixture.world) !! "tab:5" = Some data ∧
    items data !! "POST https://x.com/api/orders" = Some it ∧
    item_ok "POST https://x.com/api/orders" it.
Proof.
  intros acts.
  destruct (session (run (H:=Fixture.host) acts Fixture.world) !! "tab:5")
    as [data|] eqn:Hdata; [|by vm_compute in Hdata].
  destruct (items data !! "POST https://x.com/api/orders") as [it|] eqn:Hit.
  - exists data, it. split; [done|]. split; [done|].
    apply (@stored_items_are_well_formed Fixture.host acts Fixture.world "tab:5"
             "POST https://x.com/api/orders" data it); try done.
    intros tabId method endpoint st sz e Hin.
    repeat (apply elem_of_cons in Hin as [[=]|Hin]);
      try (by apply elem_of_nil in Hin); by subst.
  - exfalso. revert Hit.
    assert (data = table_of (run (H:=Fixture.host) acts Fixture.world) 5) as ->.
    { unfold table_of. change (tabKey 5) with "tab:5". by rewrite Hdata. }
    by vm_compute.
Defined.

(** ** What the popup lists *)

Lemma itemsArray_keys data :
  consistent data → items_ok data →
  Item.key <$> itemsArray data = order data.
Proof.
  intros [_ Hkeys] Hok. unfold itemsArray.
  assert (∀ l : list string, (∀ k, k ∈ l → k ∈ order data) →
               Item.key <$> omap (λ k, items data !! k) l = l) as Hgen.
  { induction l as [|k l IH]; intros Hl; [done|]. simpl.
    destruct (Hkeys k) as [[it Hit] _]; [apply Hl; by left|].
    rewrite Hit. simpl. destruct (Hok k it Hit) as [-> _].
    f_equal. apply IH. intros k' Hk'. apply Hl. by right. }
  by apply Hgen.
Qed.

(** X10. Whatever has happened since the session storage was empty, the
    list the popup builds from a tab's table has every stored item exactly
    once, in the order of [order]: its keys are [order], and it is as long
    as there are items. No key of [order] is dropped by
    [filter(Boolean)]. *)
Theorem popup_lists_every_item `{Host} (acts : list (Action * Env)) (w : World) (tabId : Z) :
  session w = ∅ →
  let data := table_of (run acts w) tabId in
  Item.key <$> itemsArray data = order data ∧
  length (itemsArray data) = size (items data) ∧
  ∀ it, it ∈ itemsArray data ↔ ∃ k, items data !! k = Some it.
Proof.
  intros Hw data.
  assert (consistent data) as Hc.
  { apply table_of_consistent, run_consistent.
    intros k d. by rewrite Hw, lookup_empty. }
  assert (items_ok data) as Hok.
  { unfold data, table_of.
    destruct (session (run acts w) !! tabKey tabId) as [d|] eqn:Hd; simpl.
    - eapply (run_items_ok acts w); [|done].
      intros k' d'. by rewrite Hw, lookup_empty.
    - intros k it. simpl. by rewrite lookup_empty. }
  pose proof (itemsArray_keys data Hc Hok) as Hkeys.
  split; [done|]. split.
  - destruct (consistent_sizes data Hc) as [_ <-].
    by rewrite <- Hkeys, length_fmap.
  - intros it. unfold itemsArray. rewrite list_elem_of_omap. split.
    + intros (k & _ & Hit). eauto.
    + intros (k & Hit). exists k. split; [|done].
      destruct Hc as [_ Hin]. apply Hin. eauto.
Qed.

Lemma popup_lists_every_item_witness :
  let acts :=
    [(Upsert 5 "GET" "a" None None, Fixture.clock 1);
     (Upsert 5 "GET" "b" None None, Fixture.clock 2);
     (Upsert 5 "GET" "a" None None, Fixture.clock 3)] in
  let data := table_of (run (H:=Fixture.host) acts Fixture.world) 5 in
  Item.key <$> itemsArray data = ["GET b"; "GET a"].
Proof.
  intros acts data.
  destruct (@popup_lists_every_item Fixture.host acts Fixture.world 5 eq_refl)
    as [Hkeys _].
  fold data in Hkeys. rewrite Hkeys. by vm_compute.
Defined.

(** ** Keys *)

(** X11. Methods without a space give each pair of method and endpoint a
    key of its own: two such pairs with the same key are the same pair. *)
Theorem makeKey_inj (m1 e1 m2 e2 : string) :
  has_space m1 = false → has_space m2 = false →
  makeKey m1 e1 = makeKey m2 e2 →
  m1 = m2 ∧ e1 = e2.
Proof.
  unfold makeKey. revert m2.
  induction m1 as [|c1 m1 IH]; intros [|c2 m2]; simpl; intros H1 H2 Heq.
  - by simplify_eq/=.
  - by simplify_eq/=.
  - by simplify_eq/=.
  - injection Heq as -> Heq.
    apply orb_false_iff in H1 as [_ H1]. apply orb_false_iff in H2 as [_ H2].
    by destruct (IH m2 H1 H2 Heq) as [-> ->].
Qed.

Lemma makeKey_inj_witness :
  makeKey "GET" "https://x.com/a b" ≠ makeKey "POST" "https://x.com/a b".
Proof.
  intros Heq.
  destruct (makeKey_inj "GET" "https://x.com/a b" "POST" "https://x.com/a b"
              eq_refl eq_refl Heq) as [Hm _].
  discriminate Hm.
Defined.

(** ** Reading a length *)

Lemma digit_of_char (r : N) :
  (r < 10)%N → JS.digit_of (pretty_N_char r) = Some (Z.of_N r).
Proof.
  intros Hr.
  assert (r = 0 ∨ r = 1 ∨ r = 2 ∨ r = 3 ∨ r = 4 ∨ r = 5 ∨ r = 6 ∨ r = 7 ∨ r = 8 ∨ r = 9)%N
    as Hcases by lia.
  repeat (destruct Hcases as [->|Hcases]; [reflexivity|]). by subst.
Qed.

Lemma parseInt10_digit_first (r : N) (t : string) :
  JS.parseInt10 (String (pretty_N_char r) t)
  = JS.digits 0 false (String (pretty_N_char r) t).
Proof. unfold pretty_N_char. by repeat case_match. Qed.

Lemma pretty_N_go_app (x : N) (s1 s2 : string) :
  pretty_N_go x (s1 +:+ s2) = pretty_N_go x s1 +:+ s2.
Proof.
  revert s1. induction (N.lt_wf_0 x) as [x _ IH]; intros s1.
  assert (x = 0 ∨ 0 < x)%N as [->|Hx] by lia; [done|].
  rewrite (pretty_N_go_step x (s1 +:+ s2)), (pretty_N_go_step x s1) by done.
  exact (IH _ (N.div_lt x 10 Hx eq_refl) (String _ s1)).
Qed.

Lemma pretty_N_go_head (x : N) (s : string) :
  (0 < x)%N → ∃ r t, pretty_N_go x s = String (pretty_N_char r) t.
Proof.
  revert s. induction (N.lt_wf_0 x) as [x _ IH]; intros s Hx.
  rewrite pretty_N_go_step by done.
  destruct (N.eq_0_gt_0_cases (x `div` 10)) as [->|Hd].
  - rewrite pretty_N_go_0. eauto.
  - apply IH; [by apply N.div_lt|done].
Qed.

Lemma pretty_N_go_digits (x : N) :
  (0 < x)%N →
  ∃ p : Z, ∀ s acc seen,
    JS.digits acc seen (pretty_N_go x s) = JS.digits (acc * p + Z.of_N x) true s.
Proof.
  induction (N.lt_wf_0 x) as [x _ IH]; intros Hx.
  assert (x `mod` 10 < 10)%N as Hmod by (by apply N.mod_lt).
  pose proof (N.div_mod x 10) as Hdm.
  destruct (N.eq_0_gt_0_cases (x `div` 10)) as [Hd|Hd].
  - exists 10%Z. intros s acc seen.
    rewrite pretty_N_go_step, Hd, pretty_N_go_0 by done. simpl.
    rewrite digit_of_char by done. f_equal. lia.
  - destruct (IH (x `div` 10)%N) as [p Hp]; [by apply N.div_lt|done|].
    exists (10 * p)%Z. intros s acc seen.
    rewrite pretty_N_go_step, Hp by done. simpl.
    rewrite digit_of_char by done. f_equal. lia.
Qed.

Lemma digits_stop (acc : Z) (s : string) :
  no_digit_ahead s → JS.digits acc true s = Some acc.
Proof. destruct s as [|c r]; simpl; [done|]. by intros ->. Qed.

Lemma parseInt10_blank (ws s : string) :
  blank ws = true → JS.parseInt10 (ws +:+ s) = JS.parseInt10 s.
Proof.
  intros Hws. unfold JS.parseInt10. f_equal.
  induction ws as [|c ws IH]; simpl in *; [done|].
  apply andb_true_iff in Hws as [-> Hws]. auto.
Qed.

Lemma parseInt10_numeral (z : Z) (rest : string) :
  no_digit_ahead rest → JS.parseInt10 (pretty z +:+ rest) = Some z.
Proof.
  intros Hrest.
  assert (∀ p : positive,
            JS.digits 0 false (pretty_N_go (N.pos p) "" +:+ rest) = Some (Z.pos p)) as Hpos.
  { intros p. rewrite <- pretty_N_go_app. simpl.
    destruct (pretty_N_go_digits (N.pos p)) as [q ->]; [lia|].
    by rewrite digits_stop. }
  destruct z as [|p|p]; unfold pretty, pretty_Z, pretty, pretty_positive, pretty, pretty_N.
  - change (JS.digits 0 true rest = Some 0%Z). by apply digits_stop.
  - rewrite decide_False by done.
    destruct (pretty_N_go_head (N.pos p) "") as (r & t & Hhead); [lia|].
    rewrite <- (Hpos p), Hhead. simpl. apply parseInt10_digit_first.
  - rewrite decide_False by done.
    change (Z.opp <$> JS.digits 0 false (pretty_N_go (N.pos p) "" +:+ rest)
            = Some (Z.neg p)).
    by rewrite Hpos.
Qed.

(** X12. A header value made of white space, then the decimal numeral
    of an integer below 2^53 in magnitude, negative or not, then anything
    that does not start with a digit, is read by [toIntOrNull] as that
    integer. *)
Theorem toIntOrNull_reads_numerals (ws rest : string) (z : Z) :
  blank ws = true → no_digit_ahead rest → (Z.abs z < 2 ^ 53)%Z →
  toIntOrNull (Some (ws +:+ pretty z +:+ rest)) = Some z.
Proof.
  intros Hws Hrest Hz. unfold toIntOrNull. simpl.
  rewrite parseInt10_blank, parseInt10_numeral by done. simpl.
  unfold JS.to_double. by destruct (Z.abs z <? 2 ^ 53)%Z eqn:E; [|lia].
Qed.

Lemma toIntOrNull_reads_numerals_witness :
  toIntOrNull (Some (" " +:+ pretty 120%Z +:+ ", 120")) = Some 120%Z.
Proof. apply toIntOrNull_reads_numerals; [reflexivity|reflexivity|by vm_compute]. Defined.

(** ** Closing and clearing a tab *)

Lemma upserted_fresh settings now method endpoint st sz :
  (1 ≤ maxPerTab settings)%Z →
  let key := makeKey method endpoint in
  upserted settings now empty_tab method endpoint st sz
  = {| items := {[ key := recorded (new_item key method endpoint now) now st sz ]};
       order := [key] |}.
Proof.
  intros Hmax key. unfold upserted. fold key.
  rewrite enforce_limit_nonneg by lia. simpl. rewrite lookup_empty. simpl.
  destruct (Z.to_nat (maxPerTab settings)) as [|n] eqn:Hn; [lia|]. simpl.
  rewrite take_nil, drop_nil. simpl. by rewrite insert_empty.
Qed.

(** X13. Closing a tab removes its table and nothing else: the requests
    pending for the tab stay in the correlator. When one of them completes
    afterwards, the closed tab gets a table again, with that one item,
    counted once. *)
Theorem late_completion_recreates_closed_tab details meta e1 e2 w :
  requestCache w !! Details.requestId details = Some meta →
  (0 ≤ Meta.tabId meta)%Z → quiet e1 → quiet e2 →
  (1 ≤ maxPerTab (settings_of w))%Z →
  let tab := Meta.tabId meta in
  let key := makeKey (Meta.method meta) (Meta.endpoint meta) in
  let w1 := (onRemoved tab e1 w).2 in
  let w2 := (onCompleted details e2 w1).2 in
  session w1 = delete (tabKey tab) (session w) ∧
  requestCache w1 = requestCache w ∧
  requestCache w2 = delete (Details.requestId details) (requestCache w) ∧
  session w2 !! tabKey tab
  = Some {| items :=
              {[ key := recorded (new_item key (Meta.method meta) (Meta.endpoint meta)
                                    (now e2))
                          (now e2) (StatusCode <$> Details.statusCode details)
                          (Meta.sizeBytes meta) ]};
            order := [key] |}.
Proof.
  intros Hmeta Htab Hq1 Hq2 Hmax tab key w1 w2.
  assert (w1 = with_session (delete (tabKey tab)) (with_call (SessionRemove (tabKey tab)) w))
    as Hw1.
  { unfold w1, onRemoved. run_M. by rewrite Hq1. }
  split; [by rewrite Hw1|]. split; [by rewrite Hw1|].
  assert (requestCache w1 !! Details.requestId details = Some meta) as Hmeta1
    by (by rewrite Hw1).
  assert (table_of w1 tab = empty_tab) as Hempty.
  { unfold table_of. rewrite Hw1. simpl. by rewrite lookup_delete_eq. }
  assert (settings_of w1 = settings_of w) as Hsettings by (by rewrite Hw1).
  unfold w2, onCompleted. run_M. rewrite Hmeta1.
  fold tab. rewrite upsertApiCall_quiet by done. simpl.
  rewrite lookup_insert_eq, Hempty, Hsettings, upserted_fresh by done.
  split; [by rewrite Hw1|done].
Qed.

Lemma late_completion_recreates_closed_tab_witness :
  let meta := {| Meta.tabId := 5; Meta.method := "GET";
                 Meta.endpoint := "https://x.com/api/users";
                 Meta.sizeBytes := None |} in
  let w := with_cache (insert "7" meta)
             (upserts 5 [Fixture.call "GET" "a" None 1] Fixture.world) in
  let d := Fixture.response "7" [] (Some 200%Z) in
  let w1 := (onRemoved (Meta.tabId meta) (Fixture.clock 2) w).2 in
  let w2 := (onCompleted d (Fixture.clock 3) w1).2 in
  session w1 = delete (tabKey (Meta.tabId meta)) (session w) ∧
  requestCache w1 = requestCache w ∧
  requestCache w2 = delete (Details.requestId d) (requestCache w) ∧
  session w2 !! tabKey (Meta.tabId meta)
  = Some {| items :=
              {[ makeKey (Meta.method meta) (Meta.endpoint meta) :=
                   recorded (new_item (makeKey (Meta.method meta) (Meta.endpoint meta))
                               (Meta.method meta) (Meta.endpoint meta)
                               (now (Fixture.clock 3)))
                     (now (Fixture.clock 3)) (StatusCode <$> Details.statusCode d)
                     (Meta.sizeBytes meta) ]};
            order := [makeKey (Meta.method meta) (Meta.endpoint meta)] |}.
Proof.
  intros meta w d.
  apply (late_completion_recreates_closed_tab d meta (Fixture.clock 2) (Fixture.clock 3) w).
  - by vm_compute.
  - by vm_compute.
  - intros a. reflexivity.
  - intros a. reflexivity.
  - by vm_compute.
Defined.

(** X14. The Clear button, with no storage call rejecting: it stores an
    empty table for the active tab and touches neither another tab's
    table nor the correlator, so the requests pending for the tab are
    still recorded when they complete. When there is no active tab, or the
    active tab has id 0, it does nothing at all. *)
Theorem clearTab_clears_the_active_tab e w :
  quiet e →
  match activeTab e with
  | Some tabId =>
      if decide (tabId = 0%Z) then clearTab e w = (Ok tt, w)
      else
        let w' := (clearTab e w).2 in
        (clearTab e w).1 = Ok tt ∧
        session w' = <[tabKey tabId := empty_tab]> (session w) ∧
        table_of w' tabId = empty_tab ∧
        itemsArray (table_of w' tabId) = [] ∧
        (∀ other, other ≠ tabId → table_of w' other = table_of w other) ∧
        requestCache w' = requestCache w
  | None => clearTab e w = (Ok tt, w)
  end.
Proof.
  intros Hq. unfold clearTab, refresh. run_M.
  destruct (activeTab e) as [tabId|] eqn:Hact; simpl; [|done].
  case_decide as Hzero; simpl; [done|].
  rewrite !Hq, Hact. simpl. rewrite decide_False by done. run_M. rewrite Hq. simpl.
  split; [done|]. split; [done|].
  unfold table_of. simpl. rewrite lookup_insert_eq. simpl.
  split; [done|]. split; [done|]. split; [|done].
  intros other Hother. rewrite lookup_insert_ne; [done|].
  intros Heq%tabKey_inj. by destruct Hother.
Qed.

Lemma clearTab_clears_the_active_tab_witness :
  let w := upserts 5 [Fixture.call "GET" "a" None 1] Fixture.world in
  table_of (clearTab (Fixture.clock 2) w).2 5 = empty_tab.
Proof.
  intros w.
  pose proof (clearTab_clears_the_active_tab (Fixture.clock 2) w) as Hclear.
  simpl in Hclear.
  by destruct Hclear as (_ & _ & Hempty & _); [intros a|].
Defined.

(** ** A request from start to end *)

Lemma getSettings_quiet e w :
  rejects e LocalGet = false →
  getSettings e w = (Ok (settings_of w), with_call LocalGet w).
Proof. intros Hq. unfold getSettings. run_M. by rewrite Hq. Qed.

Section Lifecycle.
Context `{Host}.
Local Arguments step : simpl never.
Local Arguments overlapped : simpl never.





End Lifecycle.


(** The headers of a fetch arrive while its start listener still waits
    for the settings: the call is counted, its length of 120 is not. *)
Example early_headers_lose_the_length :
  let d := Fixture.request "1" 5 "https://x.com/api/users" in
  let h := Fixture.response "1" [{| name := "Content-Length"; value := Some "120" |}] None in
  let c := Fixture.response "1" [] (Some 200%Z) in
  let out := overlapped (H:=Fixture.host)
               [(Deliver (BeforeRequest d), Fixture.clock 1);
                (Deliver (HeadersReceived h), Fixture.clock 2);
                (Continue 0, Fixture.clock 3);
                (Deliver (Completed c), Fixture.clock 4);
                (Continue 2, Fixture.clock 5); (Continue 2, Fixture.clock 6);
                (Continue 2, Fixture.clock 7)]
               ([], Fixture.world) in
  (λ it, (Item.count it, Item.lastSize it, Item.sizeKnownCount it))
    <$> items (table_of out.2 5) !! "GET https://x.com/api/users"
  = Some (1, None, 0).
Proof. by vm_compute. Qed.

(** ** The sizes the popup shows *)

Lemma append_empty_r (s : string) : s +:+ "" = s.
Proof.
  induction s as [|c s IH]; [done|].
  change (String c (s +:+ "") = String c s). by rewrite IH.
Qed.

Lemma pretty_digit (z : Z) : (0 ≤ z < 10)%Z → String.length (pretty z) = 1.
Proof.
  intros ?.
  assert (z ∈ [0; 1; 2; 3; 4; 5; 6; 7; 8; 9]%Z) as Hz.
  { rewrite !elem_of_cons. lia. }
  rewrite !elem_of_cons, elem_of_nil in Hz. destruct_or!; subst; done.
Qed.

Section BytesFacts.
Import QArith_base Qround Qabs.
Local Close Scope Q_scope.

Lemma Qle_bool_comp_r a x y : (x == y)%Q → Qle_bool a x = Qle_bool a y.
Proof.
  intros E. apply eq_true_iff_eq. rewrite !Qle_bool_iff. by rewrite E.
Qed.

(** [toFixed] does not depend on how the rational is written. *)
Lemma toFixed_comp f x y : (x == y)%Q → toFixed f x = toFixed f y.
Proof.
  intros E. unfold toFixed.
  rewrite (Qle_bool_comp_r _ (Qabs x) (Qabs y)) by (by rewrite E).
  rewrite (Qle_bool_comp_r _ x y E).
  assert (Qfloor (Qabs x * inject_Z (10 ^ Z.of_nat f) + (1 # 2))%Q
          = Qfloor (Qabs y * inject_Z (10 ^ Z.of_nat f) + (1 # 2))%Q) as ->
    by (by rewrite E).
  done.
Qed.

Lemma Qle_bool_frac (a b : Z) (d : positive) :
  Qle_bool (inject_Z a) (b # d) = (a * Z.pos d <=? b)%Z.
Proof. unfold Qle_bool. simpl. by rewrite Z.mul_1_r. Qed.

(** The loop of [fmtBytes] on an integer: it stops at the first unit in
    which the number is below 1024, and at GB at the latest. *)
Lemma scaled_inject (n : Z) :
  scaled 3 (inject_Z n) 0 =
    if decide (n < 1024)%Z then (inject_Z n, 0)
    else if decide (n < 1024 ^ 2)%Z then ((inject_Z n / 1024)%Q, 1)
    else if decide (n < 1024 ^ 3)%Z then ((inject_Z n / 1024 / 1024)%Q, 2)
    else ((inject_Z n / 1024 / 1024 / 1024)%Q, 3).
Proof.
  cbn [scaled].
  unfold Qle_bool, Qdiv, Qmult, Qinv, inject_Z. cbn [Qnum Qden].
  repeat case_decide; repeat (case_match; try done);
    repeat match goal with
           | H : (_ <=? _)%Z = true |- _ => apply Z.leb_le in H
           | H : (_ <=? _)%Z = false |- _ => apply Z.leb_gt in H
           end; lia.
Qed.

Lemma shifted_frac (n : Z) :
  ((inject_Z n / 1024 == (n # 1024 ^ 1))
   ∧ (inject_Z n / 1024 / 1024 == (n # 1024 ^ 2))
   ∧ (inject_Z n / 1024 / 1024 / 1024 == (n # 1024 ^ 3)))%Q.
Proof. unfold Qeq, Qdiv, Qmult, Qinv, inject_Z. cbn. lia. Qed.

Lemma toFixed_0 (n : Z) :
  (Z.abs n < 10 ^ 21)%Z → toFixed 0 (inject_Z n) = Some (pretty n).
Proof.
  intros Hn. unfold toFixed.
  change (Qabs (inject_Z n)) with (Z.abs n # 1)%Q.
  change (Z.of_nat 0) with 0%Z. change (10 ^ 0)%Z with 1%Z.
  rewrite Qle_bool_frac.
  rewrite (proj2 (Z.leb_gt _ _)) by lia.
  unfold Qfloor, Qplus, Qmult, inject_Z. cbn [Qnum Qden].
  change (Z.pos (1 * 1 * 2)) with 2%Z. change (Z.pos (1 * 1)) with 1%Z.
  replace ((Z.abs n * 1 * 2 + 1 * 1) / 2)%Z with (Z.abs n)
    by (apply Z.div_unique with 1%Z; lia).
  rewrite Z.div_1_r, append_empty_r. f_equal.
  by destruct n as [|p|p].
Qed.

Lemma toFixed_1 (n : Z) (d : positive) :
  (0 ≤ n < 10 ^ 21)%Z →
  toFixed 1 (n # d)%Q = Some (one_decimal ((20 * n + Z.pos d) / (2 * Z.pos d))%Z).
Proof.
  intros Hn. unfold toFixed, one_decimal.
  set (t := ((20 * n + Z.pos d) / (2 * Z.pos d))%Z).
  change (Qabs (n # d)) with (Z.abs n # d)%Q.
  change (Qle_bool 0 (n # d)) with (Qle_bool (inject_Z 0) (n # d)).
  rewrite !Qle_bool_frac.
  rewrite (proj2 (Z.leb_gt _ _)) by lia.
  rewrite (proj2 (Z.leb_le _ _)) by lia.
  unfold Qfloor, Qplus, Qmult, inject_Z. cbn [Qnum Qden].
  change (Z.of_nat 1) with 1%Z. change (10 ^ 1)%Z with 10%Z.
  replace ((Z.abs n * 10 * 2 + 1 * Z.pos (d * 1)) / Z.pos (d * 1 * 2))%Z
    with t by (unfold t; f_equal; lia).
  rewrite pretty_digit by (apply Z.mod_pos_bound; lia).
  done.
Qed.

(** X16. What [fmtBytes] shows for a size below [10^21] in absolute
    value. Below 1024, negative sizes included, it is the size itself in
    B. From 1024 on it is the size in the largest of KB, MB and GB that is
    not above it, GB for everything larger, rounded to the nearest tenth
    (half a tenth goes up) and written with one decimal. The number shown
    is never below 1.0; in KB and MB it can reach 1024.0, and never more. *)
Theorem fmtBytes_picks_the_unit (n : Z) :
  (Z.abs n < 10 ^ 21)%Z →
  ((n < 1024)%Z → fmtBytes (Some n) = Some (pretty n +:+ " B")) ∧
  (∀ k u,
     units !! k = Some u → 0 < k →
     (1024 ^ Z.of_nat k ≤ n)%Z →
     (k < 3 → (n < 1024 ^ Z.of_nat (S k))%Z) →
     fmtBytes (Some n) = Some (one_decimal (tenths n k) +:+ " " +:+ u)
     ∧ (10 ≤ tenths n k)%Z
     ∧ (k < 3 → (tenths n k ≤ 10240)%Z)).
Proof.
  intros Hn. unfold fmtBytes. change (length units - 1) with 3.
  rewrite scaled_inject.
  destruct (shifted_frac n) as (E1 & E2 & E3).
  split.
  - intros Hlt. rewrite decide_True by done. cbn [decide].
    rewrite decide_True by done. rewrite toFixed_0 by done. reflexivity.
  - intros k u Hu Hk Hlo Hhi.
    destruct k as [|[|[|[|k]]]]; try done; try lia;
      injection Hu as <-;
      (split; [|unfold tenths; split; [|intros ?];
                [apply Z.div_le_lower_bound|
                 apply Z.lt_succ_r, Z.div_lt_upper_bound]; lia]).
    + specialize (Hhi ltac:(lia)).
      rewrite decide_False by lia. rewrite decide_True by lia.
      rewrite decide_False by done.
      rewrite (toFixed_comp _ _ _ E1), toFixed_1 by lia. reflexivity.
    + specialize (Hhi ltac:(lia)).
      rewrite decide_False by lia. rewrite decide_False by lia.
      rewrite decide_True by lia. rewrite decide_False by done.
      rewrite (toFixed_comp _ _ _ E2), toFixed_1 by lia. reflexivity.
    + rewrite decide_False by lia. rewrite decide_False by lia.
      rewrite decide_False by lia. rewrite decide_False by done.
      rewrite (toFixed_comp _ _ _ E3), toFixed_1 by lia. reflexivity.
Qed.

End BytesFacts.

Lemma fmtBytes_picks_the_unit_witness :
  fmtBytes (Some 1048575%Z) = Some (one_decimal (tenths 1048575 1) +:+ " " +:+ "KB")
  ∧ (10 ≤ tenths 1048575 1)%Z
  ∧ (1 < 3 → (tenths 1048575 1 ≤ 10240)%Z).
Proof.
  refine (proj2 (fmtBytes_picks_the_unit 1048575 _) 1 "KB" _ _ _ _).
  - done.
  - done.
  - lia.
  - done.
  - intros _. done.
Defined.

(** One byte less than a megabyte is shown as 1024.0 KB. *)
Example almost_a_megabyte :
  fmtBytes (Some 1048575%Z) = Some "1024.0 KB"
  ∧ fmtBytes (Some 1048576%Z) = Some "1.0 MB"
  ∧ fmtBytes (Some 1536%Z) = Some "1.5 KB"
  ∧ fmtBytes (Some (-5)%Z) = Some "-5 B"
  ∧ fmtBytes None = Some dash.
Proof. by vm_compute. Qed.

(** ** The checkbox of the popup *)

(** X17. The checkbox for the query string. When its read of the
    settings or its write rejects, the listener throws and the stored
    settings are as before. Otherwise the worker's settings afterwards are
    the earlier ones with [includeQueryString] as the box is checked, the
    four others unchanged, defaults in use included; this is what the
    worker's next [getSettings] returns, and a popup opened afterwards shows
    the box as it was left. Tables and pending requests are not touched. *)
Theorem checkbox_sets_the_query_option (rejected checked : bool) (e e' : Env) (w : World) :
  let out := Popup.onChange rejected checked e w in
  let w' := out.2 in
  session w' = session w ∧ requestCache w' = requestCache w ∧
  if rejects e LocalGet || rejected then
    out.1 = Throw ∧ local_settings w' = local_settings w
  else
    out.1 = Ok tt ∧
    settings_of w'
    = {| captureTypes := captureTypes (settings_of w);
         includeQueryString := checked;
         apiIncludePatterns := apiIncludePatterns (settings_of w);
         apiExcludePatterns := apiExcludePatterns (settings_of w);
         maxPerTab := maxPerTab (settings_of w) |} ∧
    (getSettings e' w').1
    = (if rejects e' LocalGet then Throw else Ok (settings_of w')) ∧
    (Popup.includeQS e' w').1
    = (if rejects e' LocalGet then Throw else Ok checked).
Proof.
  unfold Popup.onChange, Popup.setSettings, Popup.includeQS.
  unfold Popup.getSettings. run_M.
  destruct (rejects e LocalGet); simpl; [done|].
  destruct rejected; simpl; [done|].
  split; [done|]. split; [done|]. split; [done|].
  split; [by destruct (local_settings w)|].
  by destruct (rejects e' LocalGet).
Qed.

(** ** Settings that change while a request is pending *)

Section PendingFacts.
Context `{Host}.


(** ** A request that starts again *)

(** X19. A start event for a request that is already pending, as after
    a redirect. When the new event is tracked, its entry replaces the
    pending one, and the length read from earlier headers is forgotten.
    When it is not tracked, the pending entry stays as it is, under the
    first URL and with the length of the first response. *)
Theorem restart_replaces_the_pending_entry d1 h d2 e1 e2 e3 w :
  Details.requestId h = Details.requestId d1 →
  Details.requestId d2 = Details.requestId d1 →
  rejects e1 LocalGet = false → rejects e3 LocalGet = false →
  let settings := settings_of w in
  let endpoint d := normalizeUrl (Details.url d) (includeQueryString settings) in
  let tracks d := bool_decide (Details.type d ∈ captureTypes settings)
                  && isApiUrl (Some (endpoint d)) settings in
  let entry d size := {| Meta.tabId := Details.tabId d;
                         Meta.method := JS.or_else (Details.method d) "GET";
                         Meta.endpoint := endpoint d;
                         Meta.sizeBytes := size |} in
  tracks d1 = true →
  let size := toIntOrNull (getHeaderValue (Details.responseHeaders h) "content-length") in
  let w3 := run [(BeforeRequest d1, e1); (HeadersReceived h, e2); (BeforeRequest d2, e3)] w in
  requestCache w3
  = <[Details.requestId d1 := if tracks d2 then entry d2 None else entry d1 size]>
      (requestCache w) ∧
  session w3 = session w.
Proof.
  intros Hh Hd2 Hq1 Hq3 settings endpoint tracks entry Htracks size w3.
  set (id := Details.requestId d1) in *.
  assert (∀ d e w0, rejects e LocalGet = false → settings_of w0 = settings →
            (perform (BeforeRequest d) e w0).2
            = with_cache (λ c, if tracks d then <[Details.requestId d := entry d None]> c
                               else c) (with_call LocalGet w0)) as Hstart.
  { intros d e w0 Hq Hs. simpl perform. unfold onBeforeRequest, mbind, M_bind.
    rewrite getSettings_quiet by done. rewrite Hs.
    unfold tracks, entry, endpoint.
    destruct (bool_decide _); simpl; [|done].
    by destruct (isApiUrl _ _). }
  unfold w3.
  change (run [(BeforeRequest d1, e1); (HeadersReceived h, e2); (BeforeRequest d2, e3)] w)
    with (perform (BeforeRequest d2) e3
            (perform (HeadersReceived h) e2 (perform (BeforeRequest d1) e1 w).2).2).2.
  rewrite (Hstart d1 e1 w) by done. rewrite Htracks. fold id.
  set (w1 := with_cache (λ c, <[id := entry d1 None]> c) (with_call LocalGet w)).
  assert ((perform (HeadersReceived h) e2 w1).2
          = with_cache (insert id (entry d1 size)) w1) as ->.
  { simpl. unfold onHeadersReceived. run_M. rewrite Hh. fold id.
    rewrite lookup_insert_eq. fold size. unfold entry. by destruct size. }
  rewrite Hstart by done. rewrite Hd2. fold id. simpl.
  split; [|done].
  destruct (tracks d2); by rewrite !insert_insert_eq.
Qed.

(** ** How long a request stays pending *)

(** What one action can do to the correlator. *)
Lemma perform_cache (a : Action) (e : Env) (w : World) :
  let cache' := requestCache (perform a e w).2 in
  cache' = requestCache w ∨
  (∃ d m, a = BeforeRequest d ∧ cache' = <[Details.requestId d := m]> (requestCache w)) ∨
  (∃ d m m', a = HeadersReceived d ∧
     requestCache w !! Details.requestId d = Some m ∧ same_request m m' ∧
     cache' = <[Details.requestId d := m']> (requestCache w)) ∨
  (∃ id, ends a = Some id ∧ cache' = delete id (requestCache w)).
Proof.
  destruct a as [d|d|d|d|tabId|tabId method endpoint st sz| |s]; simpl.
  - unfold onBeforeRequest. run_M.
    destruct (rejects e LocalGet); simpl; [by left|].
    destruct (bool_decide _); simpl; [|by left].
    destruct (isApiUrl _ _); simpl; [|by left].
    right. left. by eexists _, _.
  - unfold onHeadersReceived. run_M.
    destruct (requestCache w !! Details.requestId d) as [m|] eqn:Hm; simpl; [|by left].
    right. right. left. eexists d, m, _. split; [done|]. split; [done|].
    split; [|done]. by destruct (toIntOrNull _).
  - unfold onCompleted. run_M.
    destruct (requestCache w !! Details.requestId d) as [m|] eqn:Hm; simpl; [|by left].
    destruct (upsertApiCall_cases (Meta.tabId m) (Meta.method m) (Meta.endpoint m)
                (StatusCode <$> Details.statusCode d) (Meta.sizeBytes m) e w)
      as (r & w' & -> & Hcache & _).
    destruct r; simpl; [|by left].
    right. right. right. eexists. split; [done|]. by rewrite Hcache.
  - unfold onErrorOccurred. run_M.
    destruct (requestCache w !! Details.requestId d) as [m|] eqn:Hm; simpl; [|by left].
    destruct (upsertApiCall_cases (Meta.tabId m) (Meta.method m) (Meta.endpoint m)
                (Some (StatusText "ERR")) (Meta.sizeBytes m) e w)
      as (r & w' & -> & Hcache & _).
    destruct r; simpl; [|by left].
    right. right. right. eexists. split; [done|]. by rewrite Hcache.
  - left. unfold onRemoved. run_M. by destruct (rejects e _).
  - left.
    by destruct (upsertApiCall_cases tabId method endpoint st sz e w)
      as (r & w' & -> & Hcache & _).
  - left. unfold clearTab, refresh. run_M.
    destruct (activeTab e) as [tabId|] eqn:Hact; simpl; [|done].
    case_decide; simpl; [done|].
    destruct (rejects e (SessionSet _)); simpl; [done|].
    rewrite Hact. simpl. rewrite decide_False by done. run_M.
    by destruct (rejects e (SessionGet _)).
  - by left.
Qed.

(** X20. A request enters the correlator only with a start event and
    leaves it only with a completed or error event of its own. Over any run
    without a start event for the id: an id that is not pending stays so;
    and when the run has no terminal event for it either, a pending id is
    still pending at the end, for the same tab, method and endpoint.
    Closing or clearing the tab, new settings, the events of other requests
    and rejected storage calls do not end it. *)
Theorem pending_until_a_terminal_event (acts : list (Action * Env)) (w : World)
    (id : string) :
  (∀ a e, (a, e) ∈ acts → starts a ≠ Some id) →
  (requestCache w !! id = None → requestCache (run acts w) !! id = None) ∧
  (∀ m, requestCache w !! id = Some m →
        (∀ a e, (a, e) ∈ acts → ends a ≠ Some id) →
        ∃ m', requestCache (run acts w) !! id = Some m' ∧ same_request m m').
Proof.
  revert w. induction acts as [|[a e] acts IH]; intros w Hstarts.
  { split; [done|]. intros m Hm _. by exists m. }
  assert (starts a ≠ Some id) as Hstart by (apply (Hstarts a e); by left).
  destruct (IH (perform a e w).2) as [IHnone IHsome].
  { intros a' e' Hin. apply (Hstarts a' e'). by right. }
  simpl. split.
  - intros Hnone. apply IHnone.
    destruct (perform_cache a e w)
      as [->|[(d & m & -> & ->)|[(d & m & m' & -> & Hm & _ & ->)|(id' & _ & ->)]]].
    + done.
    + rewrite lookup_insert_ne; [done|]. intros <-. by destruct Hstart.
    + rewrite lookup_insert_ne; [done|]. intros <-. by rewrite Hm in Hnone.
    + by apply lookup_delete_None; right.
  - intros m Hm Hends.
    assert (ends a ≠ Some id) as Hend by (apply (Hends a e); by left).
    assert (∃ m1, requestCache (perform a e w).2 !! id = Some m1 ∧ same_request m m1)
      as (m1 & Hm1 & Hsame1).
    { destruct (perform_cache a e w)
        as [->|[(d & m0 & -> & ->)|[(d & m0 & m' & -> & Hm0 & Hsame & ->)|(id' & Hid' & ->)]]].
      - by exists m.
      - rewrite lookup_insert_ne; [by exists m|]. intros <-. by destruct Hstart.
      - destruct (decide (Details.requestId d = id)) as [<-|Hne].
        + rewrite lookup_insert_eq. exists m'. split; [done|]. by simplify_eq.
        + rewrite lookup_insert_ne by done. by exists m.
      - rewrite lookup_delete_ne; [by exists m|]. intros <-. by destruct Hend. }
    destruct (IHsome m1 Hm1) as (m' & Hm' & Hsame').
    { intros a' e' Hin. apply (Hends a' e'). by right. }
    exists m'. split; [done|].
    destruct Hsame1 as (? & ? & ?), Hsame' as (? & ? & ?).
    repeat split; congruence.
Qed.

End PendingFacts.


(** A fetch that starts under the fixture's settings is recorded without
    its query string, although the settings stored before it completes ask
    for the query string and track neither its type nor its URL. *)
Example recorded_under_the_old_settings :
  let d := Fixture.request "1" 5 "https://x.com/api/users?x=1" in
  let c := Fixture.response "1" [] (Some 200%Z) in
  let s := Some {| st_captureTypes := Some []; st_includeQueryString := Some true;
                   st_apiIncludePatterns := Some ["/graphql"];
                   st_apiExcludePatterns := None; st_maxPerTab := Some 7%Z |} in
  let w3 := run (H:=Fixture.host)
              [(BeforeRequest d, Fixture.clock 1); (SettingsStored s, Fixture.clock 2);
               (Completed c, Fixture.clock 3)] Fixture.world in
  order (table_of w3 5) = ["GET https://x.com/api/users"].
Proof. by vm_compute. Qed.

Lemma restart_replaces_the_pending_entry_witness :
  let d1 := Fixture.request "1" 5 "https://x.com/api/users" in
  let h := Fixture.response "1" [{| name := "Content-Length"; value := Some "120" |}]
             (Some 302%Z) in
  let d2 := Fixture.request "1" 5 "https://x.com/app.js" in
  let w := Fixture.world in
  let settings := settings_of w in
  let endpoint d := normalizeUrl (H:=Fixture.host) (Details.url d)
                      (includeQueryString settings) in
  let tracks d := bool_decide (Details.type d ∈ captureTypes settings)
                  && isApiUrl (H:=Fixture.host) (Some (endpoint d)) settings in
  let entry d size := {| Meta.tabId := Details.tabId d;
                         Meta.method := JS.or_else (Details.method d) "GET";
                         Meta.endpoint := endpoint d;
                         Meta.sizeBytes := size |} in
  let size := toIntOrNull (getHeaderValue (Details.responseHeaders h) "content-length") in
  let w3 := run (H:=Fixture.host)
              [(BeforeRequest d1, Fixture.clock 1); (HeadersReceived h, Fixture.clock 2);
               (BeforeRequest d2, Fixture.clock 3)] w in
  requestCache w3
  = <[Details.requestId d1 := if tracks d2 then entry d2 None else entry d1 size]>
      (requestCache w) ∧
  session w3 = session w.
Proof.
  intros d1 h d2 w.
  apply (@restart_replaces_the_pending_entry Fixture.host d1 h d2 (Fixture.clock 1)
           (Fixture.clock 2) (Fixture.clock 3) w).
  - reflexivity.
  - reflexivity.
  - reflexivity.
  - reflexivity.
  - by vm_compute.
Defined.

(** A fetch of an API URL that is redirected to a script: the script's
    start event is not tracked, and the request stays pending under the
    API URL, with the length of the redirect response. *)
Example redirect_to_untracked_url :
  let d1 := Fixture.request "1" 5 "https://x.com/api/users" in
  let h := Fixture.response "1" [{| name := "Content-Length"; value := Some "120" |}]
             (Some 302%Z) in
  let d2 := Fixture.request "1" 5 "https://x.com/app.js" in
  let w3 := run (H:=Fixture.host)
              [(BeforeRequest d1, Fixture.clock 1); (HeadersReceived h, Fixture.clock 2);
               (BeforeRequest d2, Fixture.clock 3)] Fixture.world in
  requestCache w3 !! "1"
  = Some {| Meta.tabId := 5; Meta.method := "GET";
            Meta.endpoint := "https://x.com/api/users"; Meta.sizeBytes := Some 120%Z |}.
Proof. by vm_compute. Qed.

Lemma pending_until_a_terminal_event_witness :
  let m := {| Meta.tabId := 5; Meta.method := "GET";
              Meta.endpoint := "https://x.com/api/users"; Meta.sizeBytes := None |} in
  let w := with_cache (insert "1" m) Fixture.world in
  let acts :=
    [(TabRemoved 5, Fixture.clock 1);
     (ClearTab, Fixture.clock 2);
     (SettingsStored None, Fixture.clock 3);
     (HeadersReceived
        (Fixture.response "1" [{| name := "content-length"; value := Some "9" |}] None),
      Fixture.clock 4);
     (BeforeRequest (Fixture.request "2" 5 "https://x.com/api/orders"), Fixture.clock 5);
     (Completed (Fixture.response "2" [] (Some 200%Z)), Fixture.full 6)] in
  ∃ m', requestCache (run (H:=Fixture.host) acts w) !! "1" = Some m' ∧ same_request m m'.
Proof.
  intros m w acts.
  refine (proj2 (@pending_until_a_terminal_event Fixture.host acts w "1" _) m _ _).
  - intros a e Hin.
    repeat (apply elem_of_cons in Hin as [[= -> ->]|Hin]);
      try (by apply elem_of_nil in Hin); done.
  - reflexivity.
  - intros a e Hin.
    repeat (apply elem_of_cons in Hin as [[= -> ->]|Hin]);
      try (by apply elem_of_nil in Hin); done.
Defined.

(** ** Several headers events for one request *)

Lemma with_last_length_nil (m : Meta.t) : with_last_length m [] = m.
Proof. by destruct m. Qed.

Lemma with_last_length_app (m : Meta.t) (o : option Z) (sizes : list Z) :
  with_last_length (with_last_length m (option_list o)) sizes
  = with_last_length m (option_list o ++ sizes).
Proof.
  unfold with_last_length. destruct o as [n|]; simpl; [|done].
  destruct sizes as [|x l]; [done|].
  change (last (n :: x :: l)) with (last (x :: l)).
  destruct (last (x :: l)) eqn:Hlast; [done|].
  by apply last_None in Hlast.
Qed.

(** X21. A request can get several headers events, as with redirects
    and authentication. After any number of them the pending entry carries
    the length of the last event that had a readable one, whatever the
    events after it carried, and its earlier length when none had; tab,
    method and endpoint stay, and nothing else in the world changes. *)
Theorem last_readable_length_wins `{Host} (hs : list (Details.t * Env)) (id : string)
    (meta : Meta.t) (w : World) :
  requestCache w !! id = Some meta →
  hs ≠ [] →
  (∀ h e, (h, e) ∈ hs → Details.requestId h = id) →
  run ((λ he, (HeadersReceived he.1, he.2)) <$> hs) w
  = with_cache (insert id (with_last_length meta (omap (λ he, length_of he.1) hs))) w.
Proof.
  revert meta w. induction hs as [|[h e] hs IH]; intros meta w Hmeta Hne Hids; [done|].
  assert (Details.requestId h = id) as Hid by (apply (Hids h e); by left).
  set (meta1 := with_last_length meta (option_list (length_of h))).
  assert ((perform (HeadersReceived h) e w).2 = with_cache (insert id meta1) w) as Hstep.
  { simpl. unfold onHeadersReceived. run_M. rewrite Hid, Hmeta.
    unfold meta1, length_of. destruct (toIntOrNull _); simpl; [reflexivity|].
    by rewrite with_last_length_nil. }
  rewrite fmap_cons. cbn [run fst snd]. rewrite Hstep.
  destruct hs as [|he hs'].
  { simpl. unfold meta1. by destruct (length_of h). }
  assert (omap (λ he0 : Details.t * Env, length_of he0.1) ((h, e) :: he :: hs')
          = option_list (length_of h)
            ++ omap (λ he0 : Details.t * Env, length_of he0.1) (he :: hs')) as ->.
  { change (omap (λ he0 : Details.t * Env, length_of he0.1) ((h, e) :: he :: hs'))
      with (match length_of h with
            | Some n => n :: omap (λ he0 : Details.t * Env, length_of he0.1) (he :: hs')
            | None => omap (λ he0 : Details.t * Env, length_of he0.1) (he :: hs')
            end).
    by destruct (length_of h). }
  rewrite (IH meta1); [|by simpl; rewrite lookup_insert_eq|done|].
  - rewrite <- with_last_length_app. fold meta1.
    unfold with_cache. simpl. by rewrite insert_insert_eq.
  - intros h' e' Hin. apply (Hids h' e'). by right.
Qed.

Lemma last_readable_length_wins_witness :
  let m := {| Meta.tabId := 5; Meta.method := "GET";
              Meta.endpoint := "https://x.com/api/users"; Meta.sizeBytes := None |} in
  let w := with_cache (insert "1" m) Fixture.world in
  let hs :=
    [(Fixture.response "1" [{| name := "Content-Length"; value := Some "120" |}] None,
      Fixture.clock 1);
     (Fixture.response "1" [{| name := "content-length"; value := Some "64" |}] None,
      Fixture.clock 2);
     (Fixture.response "1" [{| name := "Transfer-Encoding"; value := Some "chunked" |}] None,
      Fixture.clock 3)] in
  run (H:=Fixture.host) ((λ he, (HeadersReceived he.1, he.2)) <$> hs) w
  = with_cache (insert "1" (with_last_length m (omap (λ he, length_of he.1) hs))) w.
Proof.
  intros m w hs.
  apply (@last_readable_length_wins Fixture.host hs "1" m w).
  - reflexivity.
  - done.
  - intros h e Hin.
    repeat (apply elem_of_cons in Hin as [[= -> ->]|Hin]);
      try (by apply elem_of_nil in Hin); done.
Defined.

(** After lengths 120 and 64 and a chunked response the request carries
    the length 64: the response that comes last does not take it away. *)
Example chunked_response_keeps_the_length :
  let m := {| Meta.tabId := 5; Meta.method := "GET";
              Meta.endpoint := "https://x.com/api/users"; Meta.sizeBytes := None |} in
  let hs :=
    [(Fixture.response "1" [{| name := "Content-Length"; value := Some "120" |}] None,
      Fixture.clock 1);
     (Fixture.response "1" [{| name := "content-length"; value := Some "64" |}] None,
      Fixture.clock 2);
     (Fixture.response "1" [{| name := "Transfer-Encoding"; value := Some "chunked" |}] None,
      Fixture.clock 3)] in
  Meta.sizeBytes (with_last_length m (omap (λ he, length_of he.1) hs)) = Some 64%Z.
Proof. by vm_compute. Qed.
